(** * Graph search over the co-starring graph: frontiers and the search driver

    Shallow embedding of [src/degrees/util.py] and of the search functions of
    [src/degrees/degrees.py].

    - A Python list is a [list]; [append] adds at the back, so the order of
      the list is the order of insertion.
    - A Python [set] of states is a [gset]; a [dict] is a [gmap].
    - Python integers are unbounded: [g] and [f] are in [Z].
    - [raise Exception("empty frontier")] is the left injection of a sum. *)

From stdpp Require Import gmap strings list.
From Stdlib Require Import ZArith Lia.

Local Open Scope Z_scope.
Local Set Warnings "-register-all".

(** Exceptions the modelled code can raise. *)
Inductive exn : Type :=
  | Exception (msg : string)
  | KeyError (key : string).

(** ** util.py *)

Section Util.

Context {State Action : Type} {State_eq : EqDecision State}
        {State_countable : Countable State}.

(** [class Node]: [parent] is [None] for the start node. *)
Inductive Node : Type :=
  mkNode { state : State;
           parent : option Node;
           action : option Action;
           g : Z;
           f : Z }.

(** The three frontier classes.  [QueueFrontier] inherits [__init__], [add],
    [contains_state] and [empty] from [StackFrontier]; [AStarFrontier]
    defines them again with the same bodies. *)
Inductive FrontierClass : Type :=
  | StackFrontier
  | QueueFrontier
  | AStarFrontier.

(** [self.frontier = []] *)
Definition new_frontier : list Node := [].

(** [self.frontier.append(node)] *)
Definition add (frontier : list Node) (node : Node) : list Node :=
  frontier ++ [node].

(** [any(node.state == state for node in self.frontier)] *)
Definition contains_state (frontier : list Node) (s : State) : bool :=
  existsb (fun node => bool_decide (state node = s)) frontier.

(** [len(self.frontier) == 0] *)
Definition empty (frontier : list Node) : bool :=
  bool_decide (length frontier = 0%nat).

(** Python's [min(iterable, key=...)]: the first item is the running best,
    a later item replaces it only when its key is strictly smaller. *)
Fixpoint min_key {A : Type} (key : A → Z) (best : A) (rest : list A) : A :=
  match rest with
  | [] => best
  | x :: rest' =>
      if key x <? key best then min_key key x rest' else min_key key best rest'
  end.

(** [min(range(len(self.frontier)), key=lambda i: self.frontier[i].f)] on a
    frontier that is not empty ([d] is only the default of [nth]). *)
Definition lowest_index (frontier : list Node) (d : Node) : nat :=
  min_key (fun i => f (nth i frontier d)) 0%nat
          (seq 1 (length frontier - 1)).

(** [remove]: the node taken out and the frontier that is left. *)
Definition remove (c : FrontierClass) (frontier : list Node)
  : exn + (Node * list Node) :=
  if empty frontier then inl (Exception "empty frontier")
  else
    match frontier with
    | [] => inl (Exception "empty frontier")
    | d :: _ =>
        match c with
        | StackFrontier =>
            (* node = self.frontier[-1]; self.frontier = self.frontier[:-1] *)
            inr (List.last frontier d, take (length frontier - 1) frontier)
        | QueueFrontier =>
            (* node = self.frontier[0]; self.frontier = self.frontier[1:] *)
            inr (nth 0 frontier d, drop 1 frontier)
        | AStarFrontier =>
            (* return self.frontier.pop(lowest_index) *)
            let lowest_index := lowest_index frontier d in
            inr (nth lowest_index frontier d, delete lowest_index frontier)
        end
    end.

(** A frontier driven by a sequence of calls. *)
Inductive call : Type :=
  | CallAdd (node : Node)
  | CallRemove.

(** One call on a frontier; a [remove] that raises leaves the list as it
    was. *)
Definition do_call (c : FrontierClass) (frontier : list Node) (k : call)
  : list Node :=
  match k with
  | CallAdd node => add frontier node
  | CallRemove =>
      match remove c frontier with
      | inr (_, frontier') => frontier'
      | inl _ => frontier
      end
  end.

Definition do_calls (c : FrontierClass) (ks : list call) : list Node :=
  fold_left (do_call c) ks new_frontier.

(** The history of a frontier, apart from the list it holds: the nodes the
    [add] calls of [ks] passed in, in order. *)
Fixpoint added (ks : list call) : list Node :=
  match ks with
  | [] => []
  | CallAdd node :: ks' => node :: added ks'
  | CallRemove :: ks' => added ks'
  end.

(** The nodes the [remove] calls of [ks] returned, in order, when the calls
    start on [frontier]; a [remove] that raises returns none. *)
Fixpoint handed_out (c : FrontierClass) (frontier : list Node) (ks : list call)
  : list Node :=
  match ks with
  | [] => []
  | CallAdd node :: ks' => handed_out c (add frontier node) ks'
  | CallRemove :: ks' =>
      match remove c frontier with
      | inr (node, frontier') => node :: handed_out c frontier' ks'
      | inl _ => handed_out c frontier ks'
      end
  end.

End Util.

Arguments Node : clear implicits.

(** ** degrees.py: the search functions *)

Section Search.

Context {State Action : Type} {State_eq : EqDecision State}
        {State_countable : Countable State}.

(** The graph: [neighbors s] stands for [neighbors_for_person(s)], the
    (movie, person) pairs one step away from [s].  Python iterates over a set
    in an order the program does not control, so the pairs come as a list in
    any order. *)
Variable neighbors : State → list (Action * State).

(** How a run of a search function ends.  [Returned] carries the value of
    [return] ([None] is Python's [None]) together with the local variables
    [explored] and [nodes_explored] at that moment.  [OutOfFuel] belongs to
    the model only: the [while] loop is unrolled [fuel] times. *)
Inductive outcome : Type :=
  | Returned (path : option (list (option Action * State)))
             (explored : gset State) (nodes_explored : nat)
  | Raised (e : exn)
  | OutOfFuel.

(** [while node.parent is not None:
       path.append((node.action, node.state)); node = node.parent] *)
Fixpoint walk_back (node : Node State Action) : list (option Action * State) :=
  match node with
  | mkNode s (Some p) a _ _ => (a, s) :: walk_back p
  | mkNode _ None _ _ _ => []
  end.

(** [path = []; while ...; path.reverse()] *)
Definition reconstruct (node : Node State Action) : list (option Action * State) :=
  reverse (walk_back node).

(** The [for movie_id, person_id in neighbors_for_person(node.state)] loop.
    [child node movie_id person_id] builds the child node; the frontier
    grows while the loop runs, so [contains_state] sees the children added
    by earlier rounds. *)
Definition expand (child : Node State Action → Action → State → Node State Action)
    (node : Node State Action) (explored : gset State)
    (frontier : list (Node State Action)) : list (Node State Action) :=
  fold_left
    (fun frontier '(movie_id, person_id) =>
       if negb (contains_state frontier person_id)
          && bool_decide (person_id ∉ explored)
       then add frontier (child node movie_id person_id)
       else frontier)
    (neighbors (state node)) frontier.

(** The [while not frontier.empty()] loop, shared by both search functions. *)
Fixpoint search_loop (c : FrontierClass)
    (child : Node State Action → Action → State → Node State Action)
    (target : State) (fuel : nat)
    (frontier : list (Node State Action)) (explored : gset State)
    (nodes_explored : nat) : outcome :=
  match fuel with
  | O => OutOfFuel
  | S fuel' =>
      if empty frontier then Returned None explored nodes_explored
      else
        match remove c frontier with
        | inl e => Raised e
        | inr (node, frontier) =>
            let nodes_explored := S nodes_explored in
            if bool_decide (state node = target)
            then Returned (Some (reconstruct node)) explored nodes_explored
            else
              let explored := explored ∪ {[state node]} in
              search_loop c child target fuel'
                          (expand child node explored frontier)
                          explored nodes_explored
        end
  end.

(** [Node(state=person_id, parent=node, action=movie_id, g=child_g, f=child_f)] *)
Definition child_A_STAR (h : State → Z) (node : Node State Action)
    (movie_id : Action) (person_id : State) : Node State Action :=
  let child_g := g node + 1 in
  let child_f := child_g + h person_id in
  mkNode person_id (Some node) (Some movie_id) child_g child_f.

(** [shortest_path_A_STAR(source, target, h)] *)
Definition shortest_path_A_STAR (source target : State) (h : State → Z)
    (fuel : nat) : outcome :=
  let start := mkNode source None None 0 (h source) in
  let frontier := add new_frontier start in
  search_loop AStarFrontier (child_A_STAR h) target fuel frontier ∅ 0.

(** [Node(state=person_id, parent=node, action=movie_id)], [g] and [f] at
    their default 0 *)
Definition child_plain (node : Node State Action)
    (movie_id : Action) (person_id : State) : Node State Action :=
  mkNode person_id (Some node) (Some movie_id) 0 0.

(** The body of [shortest_path(source, target)] with the class of the
    frontier left open. *)
Definition shortest_path_with (c : FrontierClass) (source target : State)
    (fuel : nat) : outcome :=
  let start := mkNode source None None 0 0 in
  let frontier := add new_frontier start in
  search_loop c child_plain target fuel frontier ∅ 0.

(** [shortest_path] as it stands: [frontier = StackFrontier()]. *)
Definition shortest_path : State → State → nat → outcome :=
  shortest_path_with StackFrontier.

(** *** The graph as the specification sees it *)

Definition edge (s t : State) : Prop :=
  ∃ a, (a, t) ∈ neighbors s.

(** [walk k s t]: [t] is [k] edges away from [s]. *)
Inductive walk : nat → State → State → Prop :=
  | walk_here s : walk 0 s s
  | walk_step k s m t : walk k s m → edge m t → walk (S k) s t.

Definition reachable (s t : State) : Prop := ∃ k, walk k s t.

(** [d] is the graph distance from [s] to [t]. *)
Definition distance (s t : State) (d : nat) : Prop :=
  walk d s t ∧ ∀ k, walk k s t → (d ≤ k)%nat.

(** A returned path read from the source: each entry names a movie and the
    person that movie leads to from the person before. *)
Inductive path_from : State → list (option Action * State) → State → Prop :=
  | path_done s : path_from s [] s
  | path_hop s a m p t :
      (a, m) ∈ neighbors s → path_from m p t →
      path_from s ((Some a, m) :: p) t.

(** A finite graph: the vertices are a finite set that the edges do not
    leave. *)
Definition closed (V : gset State) : Prop :=
  ∀ s a t, s ∈ V → (a, t) ∈ neighbors s → t ∈ V.

Definition connected (V : gset State) : Prop :=
  ∀ s t, s ∈ V → t ∈ V → reachable s t.

End Search.

(** ** degrees.py: the tables and [neighbors_for_person] *)

(** The value of [people[id]]: keys ["name"], ["birth"], ["movies"]. *)
Record person : Type :=
  mkPerson { p_name : string; p_birth : string; p_movies : gset string }.

(** The value of [movies[id]]: keys ["title"], ["year"], ["stars"]. *)
Record movie : Type :=
  mkMovie { m_title : string; m_year : string; m_stars : gset string }.

(** The module's global dictionaries [people] and [movies].  ([names] only
    serves the lookup of a person by name in [main].) *)
Record tables : Type :=
  mkTables { people : gmap string person; movies : gmap string movie }.

(** Rows as [csv.DictReader] hands them out, one record per file. *)
Record people_row : Type :=
  mkPeopleRow { pr_id : string; pr_name : string; pr_birth : string }.
Record movies_row : Type :=
  mkMoviesRow { mr_id : string; mr_title : string; mr_year : string }.
Record stars_row : Type :=
  mkStarsRow { sr_person_id : string; sr_movie_id : string }.

Record directory : Type :=
  mkDirectory { people_csv : list people_row;
                movies_csv : list movies_row;
                stars_csv : list stars_row }.

(** [people[row["id"]] = {"name": ..., "birth": ..., "movies": set()}] *)
Definition load_person (t : tables) (row : people_row) : tables :=
  mkTables (<[pr_id row := mkPerson (pr_name row) (pr_birth row) ∅]> (people t))
           (movies t).

(** [movies[row["id"]] = {"title": ..., "year": ..., "stars": set()}] *)
Definition load_movie (t : tables) (row : movies_row) : tables :=
  mkTables (people t)
           (<[mr_id row := mkMovie (mr_title row) (mr_year row) ∅]> (movies t)).

(** [try:
       people[row["person_id"]]["movies"].add(row["movie_id"])
       movies[row["movie_id"]]["stars"].add(row["person_id"])
     except KeyError: pass]
    The first statement has run when the second one raises. *)
Definition load_star (t : tables) (row : stars_row) : tables :=
  match people t !! sr_person_id row with
  | None => t
  | Some p =>
      let people' :=
        <[sr_person_id row :=
            mkPerson (p_name p) (p_birth p) (p_movies p ∪ {[sr_movie_id row]})]>
          (people t) in
      match movies t !! sr_movie_id row with
      | None => mkTables people' (movies t)
      | Some m =>
          mkTables people'
            (<[sr_movie_id row :=
                 mkMovie (m_title m) (m_year m) (m_stars m ∪ {[sr_person_id row]})]>
               (movies t))
      end
  end.

(** [load_data(directory)] acting on the global dictionaries. *)
Definition load_data (dir : directory) (t : tables) : tables :=
  let t := fold_left load_person (people_csv dir) t in
  let t := fold_left load_movie (movies_csv dir) t in
  fold_left load_star (stars_csv dir) t.

(** The dictionaries when the module is loaded: [people = {}], [movies = {}]. *)
Definition no_tables : tables := mkTables ∅ ∅.

(** [for person_id in movies[movie_id]["stars"]:
       neighbors.add((movie_id, person_id))] *)
Definition add_stars (movie_id : string) (stars : gset string)
    (neighbors : gset (string * string)) : gset (string * string) :=
  fold_left (fun neighbors person_id => neighbors ∪ {[(movie_id, person_id)]})
            (elements stars) neighbors.

(** [neighbors_for_person(person_id)]; a key that is missing raises
    [KeyError]. *)
Definition neighbors_for_person (t : tables) (person_id : string)
  : exn + gset (string * string) :=
  match people t !! person_id with
  | None => inl (KeyError person_id)
  | Some p =>
      let movie_ids := p_movies p in
      fold_left
        (fun acc movie_id =>
           match acc with
           | inl e => inl e
           | inr neighbors =>
               match movies t !! movie_id with
               | None => inl (KeyError movie_id)
               | Some m => inr (add_stars movie_id (m_stars m) neighbors)
               end
           end)
        (elements movie_ids) (inr ∅)
  end.

(** ** degrees.py: [names] and [person_id_for_name] *)

Section Names.

(** Python's [str.lower]. *)
Variable lower : string → string.

(** The [names] part of the loop over [people.csv]:
    [if row["name"].lower() not in names:
         names[row["name"].lower()] = {row["id"]}
     else:
         names[row["name"].lower()].add(row["id"])] *)
Definition load_name (names : gmap string (gset string)) (row : people_row)
  : gmap string (gset string) :=
  match names !! lower (pr_name row) with
  | None => <[lower (pr_name row) := {[pr_id row]}]> names
  | Some person_ids =>
      <[lower (pr_name row) := person_ids ∪ {[pr_id row]}]> names
  end.

(** What [load_data(directory)] does to the global dictionary [names]. *)
Definition load_names (dir : directory) (names : gmap string (gset string))
  : gmap string (gset string) :=
  fold_left load_name (people_csv dir) names.

(** [for person_id in person_ids: person = people[person_id]; ...; print(...)]:
    the lookups of the loop that lists the choices. *)
Fixpoint list_choices (t : tables) (person_ids : list string) : exn + unit :=
  match person_ids with
  | [] => inr ()
  | person_id :: rest =>
      match people t !! person_id with
      | None => inl (KeyError person_id)
      | Some _ => list_choices t rest
      end
  end.

(** [person_id_for_name(name)]; [typed] is what [input("Intended Person ID: ")]
    returns when the name is ambiguous. *)
Definition person_id_for_name (names : gmap string (gset string)) (t : tables)
    (name typed : string) : exn + option string :=
  let person_ids := elements (default ∅ (names !! lower name)) in
  match person_ids with
  | [] => inr None
  | [person_id] => inr (Some person_id)
  | _ :: _ :: _ =>
      match list_choices t person_ids with
      | inl e => inl e
      | inr _ =>
          if bool_decide (typed ∈ person_ids) then inr (Some typed)
          else inr None
      end
  end.

End Names.

(** ** degrees.py: the search of [main] on the tables *)

Section OnTables.

(** [order person_id s] is the order in which Python iterates over the set
    [s] that [neighbors_for_person(person_id)] returned. *)
Variable order : string → gset (string * string) → list (string * string).

(** The [while] loop of the search functions with
    [neighbors_for_person(node.state)] evaluated on the tables: a [KeyError]
    it raises ends the search. *)
Fixpoint search_loop_on (t : tables) (c : FrontierClass)
    (child : Node string string → string → string → Node string string)
    (target : string) (fuel : nat)
    (frontier : list (Node string string)) (explored : gset string)
    (nodes_explored : nat) : outcome :=
  match fuel with
  | O => OutOfFuel
  | S fuel' =>
      if empty frontier then Returned None explored nodes_explored
      else
        match remove c frontier with
        | inl e => Raised e
        | inr (node, frontier) =>
            let nodes_explored := S nodes_explored in
            if bool_decide (state node = target)
            then Returned (Some (reconstruct node)) explored nodes_explored
            else
              let explored := explored ∪ {[state node]} in
              match neighbors_for_person t (state node) with
              | inl e => Raised e
              | inr neighbors =>
                  search_loop_on t c child target fuel'
                    (expand (fun person_id => order person_id neighbors)
                            child node explored frontier)
                    explored nodes_explored
              end
        end
  end.

(** [shortest_path_A_STAR(source, target, h)] on the tables. *)
Definition shortest_path_A_STAR_on (t : tables) (source target : string)
    (h : string → Z) (fuel : nat) : outcome :=
  let start := mkNode source None None 0 (h source) in
  let frontier := add new_frontier start in
  search_loop_on t AStarFrontier (child_A_STAR h) target fuel frontier ∅ 0.

(** The graph the tables stand for: the pairs [neighbors_for_person]
    returns, no edge where it raises. *)
Definition costars (t : tables) (person_id : string) : list (string * string) :=
  match neighbors_for_person t person_id with
  | inr neighbors => order person_id neighbors
  | inl _ => []
  end.

End OnTables.

(** Every movie that [stars.csv] names is listed in [movies.csv]. *)
Definition movies_listed (dir : directory) : Prop :=
  ∀ row, row ∈ stars_csv dir →
         ∃ mrow, mrow ∈ movies_csv dir ∧ mr_id mrow = sr_movie_id row.

(** ** Two small inputs *)

(** Three people, every pair of them in a movie of their own:
    A -m1- B, B -m2- C, A -m3- C. *)
Definition triangle (s : string) : list (string * string) :=
  if decide (s = "A") then [("m1", "A"); ("m1", "B"); ("m3", "A"); ("m3", "C")]
  else if decide (s = "B") then [("m1", "A"); ("m1", "B"); ("m2", "B"); ("m2", "C")]
  else if decide (s = "C") then [("m2", "B"); ("m2", "C"); ("m3", "A"); ("m3", "C")]
  else [].

Definition triangle_people : gset string := {["A"; "B"; "C"]}.

(** Two people with no movie in common. *)
Definition strangers (s : string) : list (string * string) :=
  if decide (s = "A") then [("m1", "A")]
  else if decide (s = "B") then [("m2", "B")]
  else [].

Definition strangers_people : gset string := {["A"; "B"]}.

(** The triangle as three files. *)
Definition triangle_dir : directory :=
  mkDirectory
    [mkPeopleRow "A" "Ann" "1950"; mkPeopleRow "B" "Bob" "1960";
     mkPeopleRow "C" "Cy" "1970"]
    [mkMoviesRow "m1" "One" "1991"; mkMoviesRow "m2" "Two" "1992";
     mkMoviesRow "m3" "Three" "1993"]
    [mkStarsRow "A" "m1"; mkStarsRow "B" "m1"; mkStarsRow "B" "m2";
     mkStarsRow "C" "m2"; mkStarsRow "A" "m3"; mkStarsRow "C" "m3"].

(** A [stars.csv] that names a movie [movies.csv] does not have. *)
Definition dangling : directory :=
  mkDirectory [mkPeopleRow "1" "Kevin Bacon" "1958"] []
              [mkStarsRow "1" "9"].

(** ** Vocabulary of the proofs *)

Section Invariants.

Context {State Action : Type} {State_eq : EqDecision State}
        {State_countable : Countable State}.

Local Abbreviation Node := (Node State Action).

Variable neighbors : State → list (Action * State).
Variables source target : State.

Implicit Types (frontier : list Node) (node : Node) (explored : gset State).

(** Number of parent links above a node: the length of the path that
    [reconstruct] builds from it. *)
Definition depth (node : Node) : nat := length (walk_back node).

(** Nodes the search can create: the start node, and children hanging off a
    created node along an edge of the graph. *)
Inductive wf_node : Node → Prop :=
  | wf_start a g f : wf_node (mkNode source None a g f)
  | wf_child p s a g f :
      wf_node p → (a, s) ∈ neighbors (state p) →
      wf_node (mkNode s (Some p) (Some a) g f).

(** [node] left [frontier], the others stayed in their order. *)
Definition taken_out frontier node frontier' : Prop :=
  ∃ l1 l2, frontier = l1 ++ node :: l2 ∧ frontier' = l1 ++ l2.

(** What holds of [frontier] and [explored] each time the [while] test is
    evaluated, whatever the class of the frontier. *)
Record inv frontier explored : Prop := {
  inv_nodup : NoDup (state <$> frontier);
  inv_fresh : ∀ n, n ∈ frontier → state n ∉ explored;
  inv_wf : ∀ n, n ∈ frontier → wf_node n;
  inv_reach : ∀ s, s ∈ explored → reachable neighbors source s;
  inv_closed : ∀ s a t,
      s ∈ explored → (a, t) ∈ neighbors s →
      t ∈ explored ∨ t ∈ (state <$> frontier);
  inv_source : source ∈ explored ∨ source ∈ (state <$> frontier);
  inv_target : target ∉ explored
}.

(** A frontier in breadth-first order: nodes of depth [d], then nodes of
    depth [d + 1]. *)
Definition levelled (d : nat) frontier : Prop :=
  ∃ A B, frontier = A ++ B
         ∧ Forall (fun n => depth n = d) A
         ∧ Forall (fun n => depth n = S d) B.

(** What holds in addition when nodes leave the frontier in the order they
    entered it.  [node_ok] is a property of single nodes that the class of
    the frontier may need. *)
Record bfs_inv (node_ok : Node → Prop) frontier explored : Prop := {
  bfs_ok : Forall node_ok frontier;
  bfs_level : ∃ d, levelled d frontier
                   ∧ ∀ s k, walk neighbors k source s → (k ≤ d)%nat →
                            s ∈ explored ∨ s ∈ (state <$> frontier);
  bfs_min : ∀ n k, n ∈ frontier →
                   walk neighbors k source (state n) →
                   (depth n ≤ k)%nat
}.

(** Nodes of the A* search with the zero heuristic carry their depth in
    [g] and in [f]. *)
Definition counts_depth (n : Node) : Prop :=
  g n = Z.of_nat (depth n) ∧ f n = Z.of_nat (depth n).

(** States of the nodes above a node, nearest first. *)
Fixpoint ancestors (node : Node) : list State :=
  match node with
  | mkNode _ (Some p) _ _ _ => state p :: ancestors p
  | mkNode _ None _ _ _ => []
  end.

(** Every node of the frontier hangs below explored states only, and below
    each of them once. *)
Definition simple_inv frontier explored : Prop :=
  ∀ n, n ∈ frontier →
       (∀ s, s ∈ ancestors n → s ∈ explored) ∧ NoDup (ancestors n).

End Invariants.

(** *** The tables *)

(** No person has a movie yet: the tables before [stars.csv] is read. *)
Definition no_movies (t : tables) : Prop :=
  ∀ pid p, people t !! pid = Some p → p_movies p = ∅.

(** A movie that is in the set of a person and has an entry of its own
    lists that person among its stars. *)
Definition stars_agree (t : tables) : Prop :=
  ∀ pid p mid m,
    people t !! pid = Some p → mid ∈ p_movies p →
    movies t !! mid = Some m → pid ∈ m_stars m.

(** * Properties of the frontiers *)

Section UtilFacts.

Context {State Action : Type} {State_eq : EqDecision State}
        {State_countable : Countable State}.

Local Abbreviation Node := (Node State Action).
Implicit Types (frontier : list Node) (node : Node) (c : FrontierClass).

Lemma empty_true frontier : empty frontier = true ↔ frontier = [].
Proof.
  unfold empty. rewrite bool_decide_eq_true. by destruct frontier.
Qed.

Lemma contains_state_spec frontier (s : State) :
  contains_state frontier s = true ↔ ∃ node, node ∈ frontier ∧ state node = s.
Proof.
  unfold contains_state. rewrite existsb_exists. split.
  - intros (node & Hin & Heq). exists node.
    apply bool_decide_eq_true in Heq. by rewrite list_elem_of_In.
  - intros (node & Hin & Heq). exists node.
    rewrite bool_decide_eq_true. by rewrite <- list_elem_of_In.
Qed.

Lemma contains_state_fmap frontier (s : State) :
  contains_state frontier s = true ↔ s ∈ (state <$> frontier).
Proof.
  rewrite contains_state_spec, list_elem_of_fmap. split.
  - intros (node & Hin & Heq). by exists node.
  - intros (node & Heq & Hin). by exists node.
Qed.

Lemma remove_nil c : remove c ([] : list Node) = inl (Exception "empty frontier").
Proof. reflexivity. Qed.

Lemma remove_Queue node frontier :
  remove QueueFrontier (node :: frontier) = inr (node, frontier).
Proof. unfold remove. simpl. by rewrite drop_0. Qed.

Lemma remove_Stack node frontier :
  remove StackFrontier (frontier ++ [node]) = inr (node, frontier).
Proof.
  unfold remove.
  destruct (empty (frontier ++ [node])) eqn:He.
  { apply empty_true in He. by destruct frontier. }
  destruct (frontier ++ [node]) as [|d rest] eqn:Hfr.
  { by destruct frontier. }
  rewrite <- Hfr. rewrite List.last_last.
  rewrite length_app. simpl.
  replace (length frontier + 1 - 1)%nat with (length frontier) by lia.
  by rewrite take_app_length.
Qed.

(** What [min] with a key returns: the first item whose key is least. *)
Lemma min_key_first {A : Type} (key : A → Z) (rest : list A) (best : A) :
  ∃ l1 l2, best :: rest = l1 ++ min_key key best rest :: l2
           ∧ Forall (fun x => key (min_key key best rest) < key x) l1
           ∧ Forall (fun x => key (min_key key best rest) ≤ key x) l2.
Proof.
  revert best. induction rest as [|x rest IH]; intros best; simpl.
  - exists [], []. by split_and!.
  - destruct (Z.ltb_spec (key x) (key best)) as [Hlt|Hge].
    + destruct (IH x) as (l1 & l2 & Heq & Hl1 & Hl2).
      remember (min_key key x rest) as r eqn:Hr. clear Hr.
      assert (key r ≤ key x) as Hrx.
      { assert (x ∈ l1 ++ r :: l2) as Hin by (rewrite <- Heq; left).
        apply elem_of_app in Hin as [Hin|Hin].
        - rewrite Forall_forall in Hl1. specialize (Hl1 _ Hin). lia.
        - apply elem_of_cons in Hin as [->|Hin]; [lia|].
          rewrite Forall_forall in Hl2. by apply Hl2. }
      exists (best :: l1), l2. split_and!; [by rewrite Heq| |done].
      constructor; [lia|done].
    + destruct (IH best) as (l1 & l2 & Heq & Hl1 & Hl2).
      remember (min_key key best rest) as r eqn:Hr. clear Hr.
      destruct l1 as [|b l1]; simpl in Heq; injection Heq as Hb Hrest.
      * subst r rest. exists [], (x :: l2). split_and!; [done|done|].
        constructor; [lia|done].
      * subst b rest. exists (best :: x :: l1), l2. split_and!; [done| |done].
        apply Forall_cons in Hl1 as [Hb Hl1].
        constructor; [done|]. constructor; [lia|done].
Qed.

Lemma seq_split_at (n : nat) (l1 l2 : list nat) (r : nat) :
  seq 0 n = l1 ++ r :: l2 →
  r = length l1 ∧ (r < n)%nat ∧ l1 = seq 0 r ∧ l2 = seq (S r) (n - S r).
Proof.
  intros Heq.
  assert (seq 0 n !! length l1 = Some r) as Hr.
  { rewrite Heq. by rewrite list_lookup_middle. }
  apply lookup_seq in Hr as [Hr Hlt]. simpl in Hr. subst r.
  split; [done|]. split; [done|].
  assert (n = (length l1 + (n - length l1))%nat) as Hn by lia.
  rewrite Hn in Heq at 1. rewrite seq_app in Heq. simpl in Heq.
  apply app_inj_1 in Heq as [H1 H2]; [|by rewrite length_seq].
  split; [done|].
  destruct (n - length l1)%nat as [|k] eqn:Hk; [lia|].
  simpl in H2. injection H2 as H2. rewrite <- H2. f_equal. lia.
Qed.

(** The index [AStarFrontier.remove] pops: in range, no node before it has
    an [f] as low, no node at all has a lower one. *)
Lemma lowest_index_spec d frontier :
  let fr := d :: frontier in
  let i := lowest_index fr d in
  (i < length fr)%nat
  ∧ (∀ j, (j < i)%nat → f (nth i fr d) < f (nth j fr d))
  ∧ (∀ j, (j < length fr)%nat → f (nth i fr d) ≤ f (nth j fr d)).
Proof.
  intros fr i. unfold i, lowest_index.
  set (key := fun i => f (nth i fr d)).
  set (rest := seq 1 (length fr - 1)).
  destruct (min_key_first key rest 0%nat) as (l1 & l2 & Heq & H1 & H2).
  remember (min_key key 0%nat rest) as r eqn:Hr0. clear Hr0.
  assert (0%nat :: rest = seq 0 (length fr)) as Hseq.
  { unfold rest, fr. simpl. by rewrite Nat.sub_0_r. }
  rewrite Hseq in Heq.
  destruct (seq_split_at _ _ _ _ Heq) as (Hr & Hlt & Hl1 & Hl2).
  rewrite Hl1 in H1. rewrite Hl2 in H2.
  split; [done|]. split.
  - intros j Hj. rewrite Forall_forall in H1. apply (H1 j).
    apply elem_of_seq. lia.
  - intros j Hj. destruct (decide (j < r)%nat) as [Hjr|Hjr].
    + rewrite Forall_forall in H1. specialize (H1 j). fold (key j) (key r).
      assert (key r < key j); [|lia]. apply H1, elem_of_seq. lia.
    + destruct (decide (j = r)) as [->|Hne]; [lia|].
      rewrite Forall_forall in H2. apply (H2 j), elem_of_seq. lia.
Qed.

Lemma remove_AStar d frontier :
  let fr := d :: frontier in
  remove AStarFrontier fr
  = inr (nth (lowest_index fr d) fr d, delete (lowest_index fr d) fr).
Proof. reflexivity. Qed.

(** With no node of a lower [f] behind it, the head is what
    [AStarFrontier.remove] takes. *)
Lemma remove_AStar_head node frontier :
  Forall (fun m => f node ≤ f m) frontier →
  remove AStarFrontier (node :: frontier) = inr (node, frontier).
Proof.
  intros Hall. rewrite remove_AStar.
  destruct (lowest_index_spec node frontier) as (Hlt & Hbefore & _).
  set (i := lowest_index (node :: frontier) node) in *.
  destruct i as [|i]; [done|]. exfalso.
  specialize (Hbefore 0%nat ltac:(lia)). simpl in Hbefore, Hlt.
  rewrite Forall_forall in Hall.
  assert (nth i frontier node ∈ frontier) as Hin.
  { apply list_elem_of_In, nth_In. lia. }
  specialize (Hall _ Hin). lia.
Qed.

(** Every [remove] that succeeds takes one node out of the list and keeps
    the others in their order. *)
Lemma remove_split c frontier node frontier' :
  remove c frontier = inr (node, frontier') →
  ∃ l1 l2, frontier = l1 ++ node :: l2 ∧ frontier' = l1 ++ l2.
Proof.
  destruct c.
  - destruct (decide (frontier = [])) as [->|Hne]; [done|].
    destruct (exists_last Hne) as (l' & x & ->).
    rewrite remove_Stack. intros [= <- <-]. exists l', [].
    by rewrite app_nil_r.
  - destruct frontier as [|d rest]; [done|].
    rewrite remove_Queue. intros [= <- <-]. by exists [], rest.
  - destruct frontier as [|d rest]; [done|].
    rewrite remove_AStar. intros [= <- <-].
    destruct (lowest_index_spec d rest) as (Hlt & _).
    set (i := lowest_index (d :: rest) d) in *.
    set (fr := d :: rest) in *.
    exists (take i fr), (drop (S i) fr). split.
    + rewrite <- (take_drop_middle fr i (nth i fr d)) at 1; [done|].
      destruct (lookup_lt_is_Some_2 fr i Hlt) as [x Hx].
      by rewrite nth_lookup, Hx.
    + apply delete_take_drop.
Qed.

Lemma remove_nonempty c frontier :
  frontier ≠ [] → ∃ node frontier', remove c frontier = inr (node, frontier').
Proof.
  destruct frontier as [|d rest]; [done|]. intros _.
  unfold remove. simpl. destruct c; eauto.
Qed.

(** The nodes a frontier holds: [add] puts one in, [remove] takes one out,
    nothing else changes. *)
Lemma add_Permutation frontier node : add frontier node ≡ₚ node :: frontier.
Proof. unfold add. by rewrite Permutation_app_comm. Qed.

Lemma remove_Permutation c frontier node frontier' :
  remove c frontier = inr (node, frontier') → frontier ≡ₚ node :: frontier'.
Proof.
  intros (l1 & l2 & -> & ->)%remove_split. by rewrite Permutation_middle.
Qed.

(** Nothing is lost and nothing made up: the nodes a frontier held, with
    those added since, are those handed out since with those it holds now. *)
Lemma calls_conserve_nodes c (ks : list (@call State Action)) frontier :
  frontier ++ added ks
  ≡ₚ handed_out c frontier ks ++ fold_left (do_call c) ks frontier.
Proof.
  revert frontier. induction ks as [|[node|] ks IH]; intros frontier; simpl.
  - by rewrite app_nil_r.
  - rewrite <- IH. unfold add. by rewrite <- app_assoc.
  - destruct (remove c frontier) as [e|[node frontier']] eqn:Hrm.
    + apply IH.
    + simpl. rewrite <- IH. by rewrite (remove_Permutation _ _ _ _ Hrm).
Qed.

End UtilFacts.

(** * Properties of the search loop *)

Section SearchFacts.

Context {State Action : Type} {State_eq : EqDecision State}
        {State_countable : Countable State}.

Local Abbreviation Node := (Node State Action).

Variable neighbors : State → list (Action * State).
Variables source target : State.

Local Abbreviation edge := (edge neighbors).
Local Abbreviation walk := (walk neighbors).
Local Abbreviation reachable := (reachable neighbors).
Local Abbreviation distance := (distance neighbors).
Local Abbreviation path_from := (path_from neighbors).
Local Abbreviation closed := (closed neighbors).
Local Abbreviation wf_node := (wf_node neighbors source).
Local Abbreviation inv := (inv neighbors source target).
Local Abbreviation bfs_inv := (bfs_inv neighbors source).

Implicit Types (frontier : list Node) (node : Node) (explored : gset State).

Lemma walk_cons k s m t : edge s m → walk k m t → walk (S k) s t.
Proof.
  intros Hsm Hw. induction Hw as [m|k m m' t Hw IH Hst].
  - apply walk_step with s; [constructor|done].
  - apply walk_step with m'; [by apply IH|done].
Qed.

Lemma walk_closed (V : gset State) k s t :
  closed V → s ∈ V → walk k s t → t ∈ V.
Proof.
  intros HV Hs Hw. induction Hw as [m|k m m' t Hw IH [a Ha]]; [done|].
  eapply HV; [by apply IH|done].
Qed.

Lemma path_from_snoc s p m a t :
  path_from s p m → (a, t) ∈ neighbors m →
  path_from s (p ++ [(Some a, t)]) t.
Proof.
  intros Hp Ha. induction Hp as [s|s a' m' p m Ha' Hp IH]; simpl.
  - apply path_hop; [done|constructor].
  - apply path_hop; [done|by apply IH].
Qed.

Lemma path_from_walk s p t : path_from s p t → walk (length p) s t.
Proof.
  induction 1 as [s|s a m p t Ha Hp IH]; simpl; [constructor|].
  apply walk_cons with m; [by exists a|done].
Qed.

Lemma wf_node_path node :
  wf_node node → path_from source (reconstruct node) (state node).
Proof.
  unfold reconstruct.
  induction 1 as [a g f|p s a g f Hp IH Ha]; simpl; [constructor|].
  rewrite reverse_cons. by apply path_from_snoc with (state p).
Qed.

Lemma reconstruct_length node : length (reconstruct node) = depth node.
Proof. unfold reconstruct, depth. apply length_reverse. Qed.

Lemma wf_node_walk node : wf_node node → walk (depth node) source (state node).
Proof.
  intros Hwf. rewrite <- reconstruct_length.
  by apply path_from_walk, wf_node_path.
Qed.

(** *** What one [remove] does to the list of states *)

Lemma taken_out_elem frontier node frontier' n :
  taken_out frontier node frontier' →
  (n ∈ frontier ↔ n = node ∨ n ∈ frontier').
Proof.
  intros (l1 & l2 & -> & ->).
  rewrite !elem_of_app, elem_of_cons. tauto.
Qed.

Lemma taken_out_state frontier node frontier' s :
  taken_out frontier node frontier' →
  (s ∈ (state <$> frontier) ↔ s = state node ∨ s ∈ (state <$> frontier')).
Proof.
  intros (l1 & l2 & -> & ->).
  rewrite !fmap_app, fmap_cons, !elem_of_app, elem_of_cons. tauto.
Qed.

Lemma taken_out_NoDup frontier node frontier' :
  taken_out frontier node frontier' →
  NoDup (state <$> frontier) →
  (state node ∉ (state <$> frontier')) ∧ NoDup (state <$> frontier').
Proof.
  intros (l1 & l2 & -> & ->).
  rewrite !fmap_app, fmap_cons.
  intros Hnd. apply NoDup_app in Hnd as (Hl1 & Hdisj & Hl2).
  apply NoDup_cons in Hl2 as [Hnot Hl2]. split.
  - rewrite elem_of_app. intros [Hin|Hin]; [|done].
    apply (Hdisj _ Hin). left.
  - apply NoDup_app. split_and!; [done| |done].
    intros x Hx Hx'. apply (Hdisj _ Hx). by right.
Qed.

(** *** The [for] loop over the neighbours *)

Section Driver.

(** The constructor of child nodes: either of the two in the source. *)
Variable child : Node → Action → State → Node.
Hypothesis child_shape :
  ∀ n a s, ∃ g f, child n a s = mkNode s (Some n) (Some a) g f.

Lemma child_state n a s : state (child n a s) = s.
Proof. by destruct (child_shape n a s) as (g & f & ->). Qed.

Lemma child_depth n a s : depth (child n a s) = S (depth n).
Proof. by destruct (child_shape n a s) as (g & f & ->). Qed.

Lemma child_wf n a s :
  wf_node n → (a, s) ∈ neighbors (state n) → wf_node (child n a s).
Proof.
  intros Hn Ha. destruct (child_shape n a s) as (g & f & ->).
  by constructor.
Qed.

(** The children one expansion appends: one per neighbouring state that is
    neither explored nor in the frontier, each state once. *)
Lemma expand_fold node explored (nbrs : list (Action * State)) frontier :
  ∃ kids,
    fold_left
      (fun frontier '(movie_id, person_id) =>
         if negb (contains_state frontier person_id)
            && bool_decide (person_id ∉ explored)
         then add frontier (child node movie_id person_id)
         else frontier) nbrs frontier = frontier ++ kids
    ∧ (∀ k, k ∈ kids → ∃ a, (a, state k) ∈ nbrs ∧ k = child node a (state k))
    ∧ (∀ k, k ∈ kids → (state k ∉ explored) ∧ (state k ∉ (state <$> frontier)))
    ∧ NoDup (state <$> kids)
    ∧ (∀ a t, (a, t) ∈ nbrs →
         t ∈ explored ∨ t ∈ (state <$> (frontier ++ kids))).
Proof.
  revert frontier. induction nbrs as [|[a t] nbrs IH]; intros frontier; simpl.
  - exists []. rewrite app_nil_r. split_and!; [done| | |constructor|].
    + intros k Hk. by apply elem_of_nil in Hk.
    + intros k Hk. by apply elem_of_nil in Hk.
    + intros a t Hin. by apply elem_of_nil in Hin.
  - destruct (negb (contains_state frontier t) && bool_decide (t ∉ explored))
      eqn:Hguard.
    + apply andb_true_iff in Hguard as [Hfr Hex].
      apply negb_true_iff in Hfr. apply bool_decide_eq_true in Hex.
      assert (t ∉ (state <$> frontier)) as Hfr'.
      { rewrite <- contains_state_fmap. by rewrite Hfr. }
      destruct (IH (add frontier (child node a t)))
        as (kids & Heq & Hkids & Hnew & Hnd & Hcov).
      unfold add in *. exists (child node a t :: kids).
      split_and!.
      * rewrite Heq. by rewrite <- app_assoc.
      * intros k [->|Hk]%elem_of_cons.
        -- exists a. rewrite child_state. split; [left|done].
        -- destruct (Hkids k Hk) as (a' & Ha' & Hk'). exists a'.
           split; [by right|done].
      * intros k [->|Hk]%elem_of_cons.
        -- by rewrite child_state.
        -- destruct (Hnew k Hk) as [Hk1 Hk2]. split; [done|].
           intros Hin. apply Hk2. rewrite fmap_app, elem_of_app. by left.
      * rewrite fmap_cons. apply NoDup_cons. split; [|done].
        intros Hin. apply list_elem_of_fmap in Hin as (k & Hk & Hin).
        destruct (Hnew k Hin) as [_ Hk2]. apply Hk2.
        rewrite fmap_app, elem_of_app. right. simpl. rewrite <- Hk. left.
      * intros a' t' [[= -> ->]|Hin]%elem_of_cons.
        -- right. rewrite fmap_app, elem_of_app. right.
           rewrite fmap_cons, child_state. left.
        -- rewrite <- app_assoc in Hcov. by apply (Hcov a').
    + destruct (IH frontier) as (kids & Heq & Hkids & Hnew & Hnd & Hcov).
      exists kids. split_and!; try done.
      * intros k Hk. destruct (Hkids k Hk) as (a' & Ha' & Hk'). exists a'.
        split; [by right|done].
      * intros a' t' [[= -> ->]|Hin]%elem_of_cons; [|by apply (Hcov a')].
        apply andb_false_iff in Hguard as [Hfr|Hex].
        -- right. apply negb_false_iff in Hfr.
           apply contains_state_fmap in Hfr.
           rewrite fmap_app, elem_of_app. by left.
        -- left. apply bool_decide_eq_false in Hex.
           by apply dec_stable in Hex.
Qed.

Lemma expand_spec node explored frontier :
  ∃ kids,
    expand neighbors child node explored frontier = frontier ++ kids
    ∧ (∀ k, k ∈ kids →
         ∃ a, (a, state k) ∈ neighbors (state node)
              ∧ k = child node a (state k))
    ∧ (∀ k, k ∈ kids → (state k ∉ explored) ∧ (state k ∉ (state <$> frontier)))
    ∧ NoDup (state <$> kids)
    ∧ (∀ a t, (a, t) ∈ neighbors (state node) →
         t ∈ explored ∨ t ∈ (state <$> (frontier ++ kids))).
Proof. apply expand_fold. Qed.

(** *** One round of the [while] loop keeps the invariant *)

Lemma inv_start start :
  state start = source → parent start = None →
  inv (add new_frontier start) ∅.
Proof.
  intros Hs Hp. destruct start as [s [p|] a g f]; simpl in *; [done|]. subst s.
  split; simpl.
  - apply NoDup_singleton.
  - intros n _. apply not_elem_of_empty.
  - intros n Hn%list_elem_of_singleton. subst n. constructor.
  - intros s Hin. by apply not_elem_of_empty in Hin.
  - intros s a' t Hin. by apply not_elem_of_empty in Hin.
  - right. left.
  - apply not_elem_of_empty.
Qed.

Lemma inv_step frontier explored node frontier' :
  inv frontier explored →
  taken_out frontier node frontier' →
  state node ≠ target →
  inv (expand neighbors child node (explored ∪ {[state node]}) frontier')
      (explored ∪ {[state node]}).
Proof.
  intros [Hnd Hfresh Hwf Hreach Hclosed Hsrc Htgt] Hout Hne.
  destruct (taken_out_NoDup _ _ _ Hout Hnd) as [Hnode Hnd'].
  assert (node ∈ frontier) as Hin by (apply (taken_out_elem _ _ _ _ Hout); by left).
  destruct (expand_spec node (explored ∪ {[state node]}) frontier')
    as (kids & -> & Hkids & Hnew & Hndk & Hcov).
  split.
  - rewrite fmap_app. apply NoDup_app. split_and!; [done| |done].
    intros s Hs [k [-> Hk]]%list_elem_of_fmap.
    by destruct (Hnew k Hk) as [_ Hk2].
  - intros n [Hn|Hn]%elem_of_app.
    + rewrite elem_of_union, elem_of_singleton. intros [Hex|Heq].
      * apply (Hfresh n); [|done]. apply (taken_out_elem _ _ _ _ Hout). by right.
      * apply Hnode. rewrite <- Heq. by apply list_elem_of_fmap_2.
    + by destruct (Hnew n Hn) as [Hk1 _].
  - intros n [Hn|Hn]%elem_of_app.
    + apply Hwf. apply (taken_out_elem _ _ _ _ Hout). by right.
    + destruct (Hkids n Hn) as (a & Ha & ->).
      apply child_wf; [by apply Hwf|done].
  - intros s [Hs|Hs%elem_of_singleton]%elem_of_union; [by apply Hreach|].
    subst s. exists (depth node). by apply wf_node_walk, Hwf.
  - intros s a t [Hs|Hs%elem_of_singleton]%elem_of_union Ha; [|subst s].
    + destruct (Hclosed s a t Hs Ha) as [Ht|Ht].
      * left. apply elem_of_union. by left.
      * apply (taken_out_state _ _ _ _ Hout) in Ht as [->|Ht].
        -- left. apply elem_of_union. right. by apply elem_of_singleton.
        -- right. rewrite fmap_app, elem_of_app. by left.
    + by apply (Hcov a).
  - destruct Hsrc as [Hs|Hs].
    + left. apply elem_of_union. by left.
    + apply (taken_out_state _ _ _ _ Hout) in Hs as [->|Hs].
      * left. apply elem_of_union. right. by apply elem_of_singleton.
      * right. rewrite fmap_app, elem_of_app. by left.
  - rewrite elem_of_union, elem_of_singleton. intros [Hex|Heq]; [done|].
    by apply Hne.
Qed.

(** With an empty frontier the explored set is the set of reachable
    states. *)
Lemma inv_exhausted explored s :
  inv [] explored → (s ∈ explored ↔ reachable source s).
Proof.
  intros [_ _ _ Hreach Hclosed Hsrc _]. split; [apply Hreach|].
  assert (∀ k a b, walk k a b → a ∈ explored → b ∈ explored) as Hall.
  { intros k a b Hw. induction Hw as [a|k a m t Hw IH [e He]]; [done|].
    intros Ha. destruct (Hclosed m e t (IH Ha) He) as [Ht|Ht]; [done|].
    by apply elem_of_nil in Ht. }
  intros [k Hw]. apply (Hall k source s Hw).
  destruct Hsrc as [Hs|Hs]; [done|]. by apply elem_of_nil in Hs.
Qed.

(** *** The loop returns *)

Section Loop.

Variable c : FrontierClass.

(** [J] is a further invariant and [Q] what it tells about the node
    [remove] hands out. *)
Variable J : list Node → gset State → Prop.
Variable Q : Node → Prop.
Hypothesis J_step : ∀ frontier explored,
  inv frontier explored → J frontier explored → frontier ≠ [] →
  ∃ node frontier',
    remove c frontier = inr (node, frontier') ∧ Q node
    ∧ (state node ≠ target →
       J (expand neighbors child node (explored ∪ {[state node]}) frontier')
         (explored ∪ {[state node]})).

Variable V : gset State.
Hypothesis V_closed : closed V.
Hypothesis V_source : source ∈ V.

Lemma search_loop_returns fuel frontier explored n :
  inv frontier explored → J frontier explored →
  (size (V ∖ explored) < fuel)%nat →
  ∃ res explored' n',
    search_loop neighbors c child target fuel frontier explored n
    = Returned res explored' n'
    ∧ match res with
      | Some path =>
          ∃ node, wf_node node ∧ state node = target ∧ Q node
                  ∧ path = reconstruct node
      | None =>
          (∀ s, s ∈ explored' ↔ reachable source s) ∧ target ∉ explored'
      end.
Proof.
  revert frontier explored n.
  induction fuel as [|fuel IH]; intros frontier explored n Hinv HJ Hfuel; [lia|].
  simpl. destruct (empty frontier) eqn:Hempty.
  - apply empty_true in Hempty as ->.
    exists None, explored, n. split; [done|]. split.
    + intros s. by apply inv_exhausted.
    + by destruct Hinv.
  - assert (frontier ≠ []) as Hne.
    { intros ->. by rewrite (proj2 (empty_true [])) in Hempty. }
    destruct (J_step frontier explored Hinv HJ Hne)
      as (node & frontier' & Hrm & HQ & HJ').
    rewrite Hrm. pose proof (remove_split _ _ _ _ Hrm) as Hout.
    assert (node ∈ frontier) as Hin
      by (apply (taken_out_elem _ _ _ _ Hout); by left).
    pose proof (inv_wf _ _ _ _ _ Hinv node Hin) as Hwf.
    case_bool_decide as Htarget.
    + exists (Some (reconstruct node)), explored, (S n). split; [done|].
      by exists node.
    + apply IH.
      * by apply inv_step with frontier.
      * by apply HJ'.
      * assert (state node ∈ V) as HinV.
        { eapply walk_closed; [done..|]. by apply wf_node_walk. }
        pose proof (inv_fresh _ _ _ _ _ Hinv node Hin) as Hfresh.
        assert (V ∖ (explored ∪ {[state node]}) ⊂ V ∖ explored) as Hsub.
        { apply strict_spec. split.
          - intros x. rewrite !elem_of_difference, elem_of_union.
            intros [Hx Hnx]. split; [done|]. intros Hx'. apply Hnx. by left.
          - intros Hsub. specialize (Hsub (state node)).
            rewrite !elem_of_difference, elem_of_union, elem_of_singleton in Hsub.
            destruct Hsub as [_ Hnx]; [by split|]. apply Hnx. by right. }
        apply subset_size in Hsub. lia.
Qed.

End Loop.


(** *** Any class of frontier: a path if there is one, the reachable set
    otherwise *)

Lemma search_loop_any c (V : gset State) fuel start :
  closed V → source ∈ V → (size V < fuel)%nat →
  state start = source → parent start = None →
  ∃ res explored n',
    search_loop neighbors c child target fuel
                (add new_frontier start) ∅ 0
    = Returned res explored n'
    ∧ match res with
      | Some path => path_from source path target
      | None => (∀ s, s ∈ explored ↔ reachable source s)
                ∧ ¬ reachable source target
      end.
Proof.
  intros HV Hsrc Hfuel Hs Hp.
  destruct (search_loop_returns c (fun _ _ => True) (fun _ => True)) with
    (V := V) (fuel := fuel) (frontier := add new_frontier start)
    (explored := (∅ : gset State)) (n := 0%nat)
    as (res & explored & n' & Hrun & Hres); try done.
  - intros frontier explored _ _ Hne.
    destruct (remove_nonempty c frontier Hne) as (node & frontier' & Hrm).
    by exists node, frontier'.
  - by apply inv_start.
  - rewrite difference_empty_L. lia.
  - exists res, explored, n'. split; [done|]. destruct res as [path|].
    + destruct Hres as (node & Hwf & Hst & _ & ->). rewrite <- Hst.
      by apply wf_node_path.
    + destruct Hres as [Hall Hnot]. split; [done|]. by rewrite <- Hall.
Qed.

(** *** Nodes leaving in the order they entered: breadth-first search *)

Section Bfs.

Variable c : FrontierClass.
Variable node_ok : Node → Prop.
Hypothesis remove_head : ∀ n frontier,
  Forall node_ok (n :: frontier) →
  Forall (fun m => (depth n ≤ depth m)%nat) frontier →
  remove c (n :: frontier) = inr (n, frontier).
Hypothesis child_ok : ∀ n a s, node_ok n → node_ok (child n a s).

Lemma levelled_head d n frontier :
  levelled d (n :: frontier) →
  Forall (fun m => (depth n ≤ depth m)%nat) frontier.
Proof.
  intros (A & B & Heq & HA & HB). destruct A as [|a A]; simpl in Heq.
  - subst B. apply Forall_cons in HB as [Hn HB].
    eapply Forall_impl; [exact HB|]. simpl. intros m Hm. lia.
  - injection Heq as <- ->. apply Forall_cons in HA as [Hn HA].
    apply Forall_app. split.
    + eapply Forall_impl; [exact HA|]. simpl. intros m Hm. lia.
    + eapply Forall_impl; [exact HB|]. simpl. intros m Hm. lia.
Qed.

(** The level can be taken to be the depth of the head. *)
Lemma bfs_level_head n frontier explored :
  inv (n :: frontier) explored → bfs_inv node_ok (n :: frontier) explored →
  levelled (depth n) (n :: frontier)
  ∧ ∀ s k, walk k source s → (k ≤ depth n)%nat →
           s ∈ explored ∨ s ∈ (state <$> n :: frontier).
Proof.
  intros Hinv [_ (d & (A & B & Heq & HA & HB) & Hcomplete) Hmin].
  destruct A as [|a A]; simpl in Heq.
  - subst B. pose proof HB as HB'. apply Forall_cons in HB' as [Hn _].
    rewrite Hn. split.
    + exists (n :: frontier), []. by rewrite app_nil_r.
    + intros s k Hw Hk. destruct (decide (k ≤ d)%nat) as [Hle|Hgt].
      { by apply (Hcomplete s k). }
      assert (k = S d) as -> by lia.
      inversion Hw as [|k' s' m t' Hw' [e He]]; subst.
      destruct (Hcomplete m d Hw' ltac:(lia)) as [Hm|Hm].
      * by apply (inv_closed _ _ _ _ _ Hinv m e s).
      * apply list_elem_of_fmap in Hm as (nm & -> & Hnm).
        rewrite Forall_forall in HB. specialize (HB nm Hnm).
        specialize (Hmin nm d Hnm Hw'). lia.
  - injection Heq as <- ->. pose proof HA as HA'.
    apply Forall_cons in HA' as [Hn _]. rewrite Hn. split; [|done].
    by exists (n :: A), B.
Qed.

Lemma bfs_step frontier explored :
  inv frontier explored → bfs_inv node_ok frontier explored → frontier ≠ [] →
  ∃ node frontier',
    remove c frontier = inr (node, frontier')
    ∧ (∀ k, walk k source (state node) → (depth node ≤ k)%nat)
    ∧ (state node ≠ target →
       bfs_inv node_ok
         (expand neighbors child node (explored ∪ {[state node]}) frontier')
         (explored ∪ {[state node]})).
Proof.
  intros Hinv Hbfs Hne. destruct frontier as [|n frontier]; [done|].
  destruct (bfs_level_head n frontier explored Hinv Hbfs)
    as [Hlev Hcomplete].
  destruct Hbfs as [Hok _ Hmin].
  exists n, frontier. split_and!.
  - apply remove_head; [done|]. by apply levelled_head with (depth n).
  - intros k Hw. apply Hmin; [left|done].
  - intros _.
    destruct (expand_spec n (explored ∪ {[state n]}) frontier)
      as (kids & -> & Hkids & Hnew & _ & _).
    apply Forall_cons in Hok as [Hokn Hok].
    assert (Forall (fun k => depth k = S (depth n)) kids) as Hdepth.
    { apply Forall_forall. intros k Hk.
      destruct (Hkids k Hk) as (a & _ & ->). apply child_depth. }
    split.
    + apply Forall_app. split; [done|]. apply Forall_forall. intros k Hk.
      destruct (Hkids k Hk) as (a & _ & ->). by apply child_ok.
    + exists (depth n). split.
      * destruct Hlev as (A & B & Heq & HA & HB).
        destruct A as [|a A]; simpl in Heq.
        { subst B. apply Forall_cons in HB as [Hn _]. lia. }
        injection Heq as <- ->. apply Forall_cons in HA as [_ HA].
        exists A, (B ++ kids). split_and!; [by rewrite app_assoc|done|].
        apply Forall_app. by split.
      * intros s k Hw Hk. destruct (Hcomplete s k Hw Hk) as [Hs|Hs].
        -- left. apply elem_of_union. by left.
        -- rewrite fmap_cons in Hs. apply elem_of_cons in Hs as [->|Hs].
           ++ left. apply elem_of_union. right. by apply elem_of_singleton.
           ++ right. rewrite fmap_app, elem_of_app. by left.
    + intros m k [Hm|Hm]%elem_of_app Hw.
      * apply Hmin; [by right|done].
      * rewrite Forall_forall in Hdepth. rewrite (Hdepth m Hm).
        destruct (decide (k ≤ depth n)%nat) as [Hle|Hgt]; [|lia]. exfalso.
        destruct (Hnew m Hm) as [Hnot1 Hnot2].
        destruct (Hcomplete (state m) k Hw Hle) as [Hs|Hs].
        -- apply Hnot1. apply elem_of_union. by left.
        -- rewrite fmap_cons in Hs. apply elem_of_cons in Hs as [Hs|Hs].
           ++ apply Hnot1. apply elem_of_union. right.
              by apply elem_of_singleton.
           ++ by apply Hnot2.
Qed.

Lemma bfs_start start :
  state start = source → parent start = None → node_ok start →
  bfs_inv node_ok (add new_frontier start) ∅.
Proof.
  intros Hs Hp Hok. destruct start as [s [p|] a g f]; simpl in *; [done|].
  subst s. split; simpl.
  - by constructor.
  - exists 0%nat. split.
    + exists [mkNode source None a g f], []. split_and!; [done| |constructor].
      by constructor.
    + intros s k Hw Hk. assert (k = 0%nat) as -> by lia.
      inversion Hw; subst. right. left.
  - intros n k Hn%list_elem_of_singleton _. subst n.
    unfold depth. simpl. lia.
Qed.

(** Breadth-first order gives a path of least length. *)
Lemma search_loop_bfs (V : gset State) fuel start :
  closed V → source ∈ V → (size V < fuel)%nat →
  state start = source → parent start = None → node_ok start →
  ∃ res explored n',
    search_loop neighbors c child target fuel
                (add new_frontier start) ∅ 0
    = Returned res explored n'
    ∧ match res with
      | Some path => path_from source path target
                     ∧ distance source target (length path)
      | None => (∀ s, s ∈ explored ↔ reachable source s)
                ∧ ¬ reachable source target
      end.
Proof.
  intros HV Hsrc Hfuel Hs Hp Hok.
  destruct (search_loop_returns c (bfs_inv node_ok)
              (fun node => ∀ k, walk k source (state node) → (depth node ≤ k)%nat))
    with (V := V) (fuel := fuel) (frontier := add new_frontier start)
         (explored := (∅ : gset State)) (n := 0%nat)
    as (res & explored & n' & Hrun & Hres); try done.
  - apply bfs_step.
  - by apply inv_start.
  - by apply bfs_start.
  - rewrite difference_empty_L. lia.
  - exists res, explored, n'. split; [done|]. destruct res as [path|].
    + destruct Hres as (node & Hwf & Hst & Hmin & ->). rewrite <- Hst.
      split; [by apply wf_node_path|]. rewrite reconstruct_length.
      split; [by apply wf_node_walk|done].
    + destruct Hres as [Hall Hnot]. split; [done|]. by rewrite <- Hall.
Qed.

End Bfs.


End Driver.

End SearchFacts.

(** * The search functions of the source *)

Section Functions.

Context {State Action : Type} {State_eq : EqDecision State}
        {State_countable : Countable State}.

Local Abbreviation Node := (Node State Action).

Variable neighbors : State → list (Action * State).

Lemma child_plain_shape (n : Node) a s :
  ∃ g f, child_plain n a s = mkNode s (Some n) (Some a) g f.
Proof. by exists 0, 0. Qed.

Lemma child_A_STAR_shape h (n : Node) a s :
  ∃ g f, child_A_STAR h n a s = mkNode s (Some n) (Some a) g f.
Proof. by eexists _, _. Qed.

Lemma child_A_STAR_counts_depth (n : Node) a s :
  counts_depth n → counts_depth (child_A_STAR (fun _ => 0) n a s).
Proof.
  intros [Hg Hf]. unfold counts_depth, child_A_STAR, depth in *. simpl.
  rewrite Hg. lia.
Qed.

Lemma remove_AStar_counts_depth (n : Node) frontier :
  Forall counts_depth (n :: frontier) →
  Forall (fun m => (depth n ≤ depth m)%nat) frontier →
  remove AStarFrontier (n :: frontier) = inr (n, frontier).
Proof.
  intros [[_ Hn] Hall]%Forall_cons Hle. apply remove_AStar_head.
  rewrite Forall_forall in Hall, Hle. apply Forall_forall. intros m Hm.
  destruct (Hall m Hm) as [_ Hfm]. specialize (Hle m Hm). lia.
Qed.

Lemma distance_unique s t d1 d2 :
  distance neighbors s t d1 → distance neighbors s t d2 → d1 = d2.
Proof.
  intros [Hw1 Hmin1] [Hw2 Hmin2].
  specialize (Hmin1 _ Hw2). specialize (Hmin2 _ Hw1). lia.
Qed.

Lemma path_from_reachable s p t :
  path_from neighbors s p t → reachable neighbors s t.
Proof. intros Hp. exists (length p). by apply path_from_walk. Qed.

(** The loop of [shortest_path] run on a [QueueFrontier]. *)
Lemma queue_search (V : gset State) source target fuel :
  closed neighbors V → source ∈ V → (size V < fuel)%nat →
  ∃ res explored n,
    shortest_path_with neighbors QueueFrontier source target fuel
    = Returned res explored n
    ∧ match res with
      | Some path => path_from neighbors source path target
                     ∧ distance neighbors source target (length path)
      | None => (∀ s, s ∈ explored ↔ reachable neighbors source s)
                ∧ ¬ reachable neighbors source target
      end.
Proof.
  intros HV Hsrc Hfuel. unfold shortest_path_with.
  apply search_loop_bfs with (node_ok := fun _ => True) (V := V);
    try done; apply child_plain_shape.
Qed.

(** [shortest_path_A_STAR] with [h = lambda x: 0]. *)
Lemma A_STAR_zero_search (V : gset State) source target fuel :
  closed neighbors V → source ∈ V → (size V < fuel)%nat →
  ∃ res explored n,
    shortest_path_A_STAR neighbors source target (fun _ => 0) fuel
    = Returned res explored n
    ∧ match res with
      | Some path => path_from neighbors source path target
                     ∧ distance neighbors source target (length path)
      | None => (∀ s, s ∈ explored ↔ reachable neighbors source s)
                ∧ ¬ reachable neighbors source target
      end.
Proof.
  intros HV Hsrc Hfuel. unfold shortest_path_A_STAR.
  apply search_loop_bfs with (node_ok := counts_depth) (V := V); try done.
  - apply child_A_STAR_shape.
  - apply remove_AStar_counts_depth.
  - apply child_A_STAR_counts_depth.
Qed.

End Functions.

(** * The tables and [neighbors_for_person] *)

Lemma load_people_no_movies rows (t : tables) :
  no_movies t → no_movies (fold_left load_person rows t).
Proof.
  revert t. induction rows as [|row rows IH]; intros t Ht; [done|].
  simpl. apply IH. intros pid p. unfold load_person. simpl.
  destruct (decide (pr_id row = pid)) as [->|Hne].
  - rewrite lookup_insert_eq. by intros [= <-].
  - rewrite lookup_insert_ne by done. apply Ht.
Qed.

Lemma load_movies_no_movies rows (t : tables) :
  no_movies t → no_movies (fold_left load_movie rows t).
Proof.
  revert t. induction rows as [|row rows IH]; intros t Ht; [done|].
  simpl. by apply IH.
Qed.

Lemma no_movies_stars_agree (t : tables) : no_movies t → stars_agree t.
Proof.
  intros Ht pid p mid m Hp Hmid _. rewrite (Ht pid p Hp) in Hmid.
  by apply not_elem_of_empty in Hmid.
Qed.

Lemma load_star_stars_agree (t : tables) row : stars_agree t → stars_agree (load_star t row).
Proof.
  intros Ht. unfold load_star.
  destruct (people t !! sr_person_id row) as [p0|] eqn:Hp0; [|done].
  destruct (movies t !! sr_movie_id row) as [m0|] eqn:Hm0.
  - intros pid p mid m. simpl.
    destruct (decide (sr_person_id row = pid)) as [Hpid|Hpid];
      destruct (decide (sr_movie_id row = mid)) as [Hmid|Hmid].
    + rewrite <- Hpid, <- Hmid, !lookup_insert_eq.
      intros _ _ [= <-]. simpl. apply elem_of_union. right.
      by apply elem_of_singleton.
    + rewrite <- Hpid, lookup_insert_eq, lookup_insert_ne by done.
      intros [= <-]. simpl. rewrite elem_of_union, elem_of_singleton.
      intros [Hin|Heq] Hm; [|by destruct Hmid].
      by apply (Ht (sr_person_id row) p0 mid m).
    + rewrite <- Hmid, lookup_insert_eq, lookup_insert_ne by done.
      intros Hp Hin [= <-]. simpl. apply elem_of_union. left.
      by apply (Ht pid p (sr_movie_id row) m0).
    + rewrite !lookup_insert_ne by done. apply Ht.
  - intros pid p mid m. simpl.
    destruct (decide (sr_person_id row = pid)) as [Hpid|Hpid].
    + rewrite <- Hpid, lookup_insert_eq.
      intros [= <-]. simpl. rewrite elem_of_union, elem_of_singleton.
      intros [Hin|Heq] Hm.
      * by apply (Ht (sr_person_id row) p0 mid m).
      * rewrite Heq, Hm0 in Hm. done.
    + rewrite lookup_insert_ne by done. apply Ht.
Qed.

Lemma load_stars_stars_agree rows (t : tables) :
  stars_agree t → stars_agree (fold_left load_star rows t).
Proof.
  revert t. induction rows as [|row rows IH]; intros t Ht; [done|].
  simpl. by apply IH, load_star_stars_agree.
Qed.

(** What [load_data] leaves in dictionaries that were empty. *)
Lemma load_data_stars_agree dir : stars_agree (load_data dir no_tables).
Proof.
  unfold load_data. apply load_stars_stars_agree, no_movies_stars_agree.
  apply load_movies_no_movies, load_people_no_movies.
  intros pid p. unfold no_tables. simpl. by rewrite lookup_empty.
Qed.

Lemma add_stars_elem (movie_id : string) (stars : gset string)
    (neighbors : gset (string * string)) (a b : string) :
  (a, b) ∈ add_stars movie_id stars neighbors
  ↔ (a, b) ∈ neighbors ∨ (a = movie_id ∧ b ∈ stars).
Proof.
  unfold add_stars. rewrite <- (elem_of_elements stars b).
  generalize (elements stars) as l. intros l. revert neighbors.
  induction l as [|x l IH]; intros neighbors; simpl.
  - rewrite elem_of_nil. tauto.
  - rewrite IH, elem_of_union, elem_of_singleton, elem_of_cons.
    split.
    + intros [[Hin|[= -> ->]]|[-> Hin]]; auto.
    + intros [Hin|[-> [->|Hin]]]; auto.
Qed.

(** When the loop over [movie_ids] ends without [KeyError], every movie
    had an entry and all its stars are among the neighbours. *)
Lemma neighbors_loop_returns (t : tables) (l : list string)
    (acc : exn + gset (string * string)) (ns : gset (string * string)) :
  fold_left
    (fun acc movie_id =>
       match acc with
       | inl e => inl e
       | inr neighbors =>
           match movies t !! movie_id with
           | None => inl (KeyError movie_id)
           | Some m => inr (add_stars movie_id (m_stars m) neighbors)
           end
       end) l acc = inr ns →
  (∃ ns0, acc = inr ns0 ∧ ns0 ⊆ ns)
  ∧ ∀ mid, mid ∈ l →
      ∃ m, movies t !! mid = Some m ∧ ∀ s, s ∈ m_stars m → (mid, s) ∈ ns.
Proof.
  revert acc. induction l as [|x l IH]; intros acc; simpl.
  - intros ->. split; [by exists ns|]. intros mid Hin. by apply elem_of_nil in Hin.
  - intros Hrun. destruct (IH _ Hrun) as [(ns1 & Hstep & Hsub) Hrest].
    destruct acc as [e|ns0]; [done|].
    destruct (movies t !! x) as [m|] eqn:Hm; [|done].
    injection Hstep as <-. split.
    + exists ns0. split; [done|]. intros [a b] Hab. apply Hsub.
      apply add_stars_elem. by left.
    + intros mid [->|Hin]%elem_of_cons; [|by apply Hrest].
      exists m. split; [done|]. intros s Hs. apply Hsub.
      apply add_stars_elem. by right.
Qed.

(** Whenever [neighbors_for_person] returns on loaded tables, the person
    asked about is among the stars of each of their movies. *)
Lemma neighbors_for_person_self (dir : directory) (pid : string) (p : person)
    (mid : string) (ns : gset (string * string)) :
  people (load_data dir no_tables) !! pid = Some p →
  mid ∈ p_movies p →
  neighbors_for_person (load_data dir no_tables) pid = inr ns →
  (mid, pid) ∈ ns.
Proof.
  intros Hp Hmid. unfold neighbors_for_person. rewrite Hp. intros Hrun.
  apply neighbors_loop_returns in Hrun as [_ Hall].
  destruct (Hall mid) as (m & Hm & Hstars); [by apply elem_of_elements|].
  apply Hstars. by apply (load_data_stars_agree dir pid p mid m).
Qed.

(** * The claims *)

Section Claims.

Context {State Action : Type} {State_eq : EqDecision State}
        {State_countable : Countable State}.

Local Abbreviation Node := (Node State Action).

Variable neighbors : State → list (Action * State).


(** C2.  When no path leads from [source] to [target], both search
    functions return [None], and [explored] then holds exactly the states
    reachable from [source]. *)
Theorem no_path_returns_None_with_reachable_explored
    (V : gset State) (source target : State) (fuel : nat)
    (c : FrontierClass) (h : State → Z) :
  closed neighbors V → source ∈ V → (size V < fuel)%nat →
  ¬ reachable neighbors source target →
  (∃ explored n,
      shortest_path_with neighbors c source target fuel = Returned None explored n
      ∧ ∀ s, s ∈ explored ↔ reachable neighbors source s)
  ∧ (∃ explored n,
      shortest_path_A_STAR neighbors source target h fuel = Returned None explored n
      ∧ ∀ s, s ∈ explored ↔ reachable neighbors source s).
Proof.
  intros HV Hsrc Hfuel Hnot. split.
  - destruct (search_loop_any neighbors source target child_plain
                (child_plain_shape) c V fuel (mkNode source None None 0 0))
      as (res & explored & n & Hrun & Hres); try done.
    destruct res as [path|].
    + destruct Hnot. by apply path_from_reachable with path.
    + exists explored, n. by destruct Hres.
  - destruct (search_loop_any neighbors source target (child_A_STAR h)
                (child_A_STAR_shape h) AStarFrontier V fuel
                (mkNode source None None 0 (h source)))
      as (res & explored & n & Hrun & Hres); try done.
    destruct res as [path|].
    + destruct Hnot. by apply path_from_reachable with path.
    + exists explored, n. by destruct Hres.
Qed.

(** C3.  On a finite graph, [shortest_path_A_STAR] with the heuristic that
    is 0 everywhere and the search loop on a [QueueFrontier] both return,
    and they return paths of the same length, or both [None]. *)
Theorem A_STAR_zero_heuristic_same_length_as_queue
    (V : gset State) (source target : State) (fuel : nat) :
  closed neighbors V → source ∈ V → (size V < fuel)%nat →
  ∃ res1 explored1 n1 res2 explored2 n2,
    shortest_path_A_STAR neighbors source target (fun _ => 0) fuel
    = Returned res1 explored1 n1
    ∧ shortest_path_with neighbors QueueFrontier source target fuel
      = Returned res2 explored2 n2
    ∧ length <$> res1 = length <$> res2.
Proof.
  intros HV Hsrc Hfuel.
  destruct (A_STAR_zero_search neighbors V source target fuel HV Hsrc Hfuel)
    as (res1 & explored1 & n1 & Hrun1 & Hres1).
  destruct (queue_search neighbors V source target fuel HV Hsrc Hfuel)
    as (res2 & explored2 & n2 & Hrun2 & Hres2).
  exists res1, explored1, n1, res2, explored2, n2. split_and!; [done..|].
  destruct res1 as [p1|], res2 as [p2|]; simpl.
  - destruct Hres1 as [_ Hd1], Hres2 as [_ Hd2].
    f_equal. by apply (distance_unique neighbors source target).
  - destruct Hres1 as [Hp1 _], Hres2 as [_ Hnot]. destruct Hnot.
    by apply path_from_reachable with p1.
  - destruct Hres1 as [_ Hnot], Hres2 as [Hp2 _]. destruct Hnot.
    by apply path_from_reachable with p2.
  - done.
Qed.

(** C4.  On a finite graph [shortest_path], which searches with a
    [StackFrontier], returns; what it returns is a path from [source] to
    [target] along edges of the graph when there is one, and [None] exactly
    when there is none. *)
Theorem stack_search_terminates_with_some_path
    (V : gset State) (source target : State) (fuel : nat) :
  closed neighbors V → source ∈ V → (size V < fuel)%nat →
  ∃ res explored n,
    shortest_path neighbors source target fuel = Returned res explored n
    ∧ (∀ path, res = Some path → path_from neighbors source path target)
    ∧ (reachable neighbors source target → ∃ path, res = Some path)
    ∧ (res = None ↔ ¬ reachable neighbors source target).
Proof.
  intros HV Hsrc Hfuel.
  destruct (search_loop_any neighbors source target child_plain
              (child_plain_shape) StackFrontier V fuel
              (mkNode source None None 0 0))
    as (res & explored & n & Hrun & Hres); try done.
  exists res, explored, n. split; [done|]. destruct res as [path|].
  - split_and!.
    + by intros p [= <-].
    + intros _. by exists path.
    + split; [done|]. intros Hnot. destruct Hnot.
      by apply path_from_reachable with path.
  - destruct Hres as [_ Hnot]. split_and!; [done| |done].
    intros Hreach. by destruct Hnot.
Qed.

(** C5.  [remove] on an empty frontier raises [Exception("empty frontier")]
    in each of the three classes; it hands out no node. *)
Theorem remove_on_empty_frontier_raises (c : FrontierClass) :
  remove c (new_frontier : list Node) = inl (Exception "empty frontier").
Proof. by destruct c. Qed.

(** C6.  With [target] equal to [source], both search functions return the
    empty path, whatever the class of the frontier and the heuristic. *)
Theorem source_is_target_returns_empty_path
    (c : FrontierClass) (h : State → Z) (source : State) (fuel : nat) :
  shortest_path_with neighbors c source source (S fuel) = Returned (Some []) ∅ 1
  ∧ shortest_path_A_STAR neighbors source source h (S fuel)
    = Returned (Some []) ∅ 1.
Proof.
  split.
  - unfold shortest_path_with. simpl.
    destruct c; unfold remove; simpl; by rewrite bool_decide_eq_true_2.
  - unfold shortest_path_A_STAR. simpl.
    unfold remove; simpl. by rewrite bool_decide_eq_true_2.
Qed.

(** C7.  On a frontier that is not empty, [AStarFrontier.remove] pops the
    node at some index [i]: no node of the frontier has a lower [f], and
    every node before index [i], that is every node added earlier, has a
    strictly higher one. *)
Theorem AStarFrontier_remove_first_lowest_f (frontier : list Node) :
  frontier ≠ [] →
  ∃ i node,
    remove AStarFrontier frontier = inr (node, delete i frontier)
    ∧ frontier !! i = Some node
    ∧ (∀ j m, frontier !! j = Some m → f node ≤ f m)
    ∧ (∀ j m, (j < i)%nat → frontier !! j = Some m → f node < f m).
Proof.
  destruct frontier as [|d rest]; [done|]. intros _.
  destruct (lowest_index_spec d rest) as (Hlt & Hbefore & Hall).
  set (fr := d :: rest) in *. set (i := lowest_index fr d) in *.
  exists i, (nth i fr d). split_and!.
  - apply remove_AStar.
  - destruct (lookup_lt_is_Some_2 fr i Hlt) as [x Hx].
    by rewrite nth_lookup, Hx.
  - intros j m Hj. pose proof (lookup_lt_Some _ _ _ Hj) as Hjlt.
    specialize (Hall j Hjlt). by rewrite (nth_lookup fr j), Hj in Hall.
  - intros j m Hji Hj. specialize (Hbefore j Hji).
    by rewrite (nth_lookup fr j), Hj in Hbefore.
Qed.

(** C8.  After any sequence of [add] and [remove] calls on a frontier of
    any of the three classes, let [held] be the nodes that were added and
    have not been handed out by a [remove] since.  The frontier then holds
    exactly the nodes of [held], and [contains_state(s)] is true exactly
    when some node of [held] has state [s]: it answers neither for a node
    that has left nor against a node that is still there. *)
Theorem contains_state_reflects_contents
    (c : FrontierClass) (ks : list (@call State Action)) (s : State)
    (held : list Node) :
  added ks ≡ₚ handed_out c new_frontier ks ++ held →
  do_calls c ks ≡ₚ held
  ∧ (contains_state (do_calls c ks) s = true
     ↔ ∃ node, node ∈ held ∧ state node = s).
Proof.
  intros Hheld.
  assert (do_calls c ks ≡ₚ held) as Hsame.
  { pose proof (calls_conserve_nodes c ks new_frontier) as Hall.
    simpl in Hall. rewrite Hheld in Hall.
    symmetry. by apply Permutation_app_inv_l in Hall. }
  split; [done|]. rewrite contains_state_spec. split.
  - intros (node & Hin & Hst). exists node. split; [|done].
    by rewrite <- Hsame.
  - intros (node & Hin & Hst). exists node. split; [|done].
    by rewrite Hsame.
Qed.

(** C9.  For the membership check of a frontier a node counts through its
    state alone.  A new frontier contains no state; once [n1] is added, the
    check for the state of [n2] succeeds exactly when the two states are
    equal or the state was there before; so on a frontier that holds [n1]
    alone it succeeds exactly when the states of [n1] and [n2] are equal,
    whatever the parents, actions, [g] and [f] of the two nodes. *)
Theorem membership_compares_states_only (frontier : list Node) (n1 n2 : Node) :
  contains_state (new_frontier : list Node) (state n2) = false
  ∧ (contains_state (add frontier n1) (state n2) = true
     ↔ state n1 = state n2 ∨ contains_state frontier (state n2) = true)
  ∧ (contains_state (add new_frontier n1) (state n2) = true
     ↔ state n1 = state n2).
Proof.
  assert (∀ fr : list Node,
             contains_state (add fr n1) (state n2) = true
             ↔ state n1 = state n2 ∨ contains_state fr (state n2) = true)
    as Hstep.
  { intros fr. rewrite !contains_state_fmap. unfold add.
    rewrite fmap_app, elem_of_app. simpl. rewrite list_elem_of_singleton.
    split; intros [Hl|Hr]; auto. }
  split; [done|]. split; [apply Hstep|].
  rewrite Hstep. split; [|by left]. by intros [Heq|Hin].
Qed.

End Claims.

(** C10.  The statement fails on tables that [load_data] can produce: a
    row of [stars.csv] whose movie is missing from [movies.csv] still puts
    the movie into the set of the person, and [neighbors_for_person] then
    raises [KeyError] instead of returning a set with the person in it. *)
Theorem neighbors_for_person_raises_on_dangling_movie :
  ∃ p, people (load_data dangling no_tables) !! "1" = Some p
       ∧ "9" ∈ p_movies p
       ∧ neighbors_for_person (load_data dangling no_tables) "1"
         = inl (KeyError "9").
Proof.
  exists (mkPerson "Kevin Bacon" "1958" {["9"]}). split_and!.
  - by vm_compute.
  - simpl. by apply elem_of_singleton.
  - by vm_compute.
Qed.

(** * The claims on the two small inputs *)

Lemma triangle_people_elem (s : string) :
  s ∈ triangle_people ↔ s = "A" ∨ s = "B" ∨ s = "C".
Proof.
  unfold triangle_people.
  rewrite !elem_of_union, !elem_of_singleton. tauto.
Qed.

Lemma triangle_edges (s t : string) :
  s ∈ triangle_people → t ∈ triangle_people → edge triangle s t.
Proof.
  rewrite !triangle_people_elem.
  intros [-> | [-> | ->]] [-> | [-> | ->]]; unfold edge, triangle; simpl.
  - exists "m1". apply list_elem_of_here.
  - exists "m1". do 1 apply list_elem_of_further. apply list_elem_of_here.
  - exists "m3". do 3 apply list_elem_of_further. apply list_elem_of_here.
  - exists "m1". apply list_elem_of_here.
  - exists "m1". do 1 apply list_elem_of_further. apply list_elem_of_here.
  - exists "m2". do 3 apply list_elem_of_further. apply list_elem_of_here.
  - exists "m3". do 2 apply list_elem_of_further. apply list_elem_of_here.
  - exists "m2". apply list_elem_of_here.
  - exists "m2". do 1 apply list_elem_of_further. apply list_elem_of_here.
Qed.

Lemma triangle_closed : closed triangle triangle_people.
Proof.
  intros s a t Hs. apply triangle_people_elem in Hs.
  rewrite triangle_people_elem.
  destruct Hs as [-> | [-> | ->]]; unfold triangle; simpl;
    rewrite !elem_of_cons, elem_of_nil;
    intros [Heq|[Heq|[Heq|[Heq|[]]]]]; injection Heq as -> ->; auto.
Qed.

Lemma triangle_connected : connected triangle triangle_people.
Proof.
  intros s t Hs Ht. exists 1%nat. apply walk_step with s; [constructor|].
  by apply triangle_edges.
Qed.

Lemma triangle_A : "A" ∈ triangle_people.
Proof. apply triangle_people_elem. by left. Qed.

Lemma triangle_C : "C" ∈ triangle_people.
Proof. apply triangle_people_elem. by right; right. Qed.

Lemma triangle_size : (size triangle_people < 4)%nat.
Proof. vm_compute. lia. Qed.

Lemma strangers_people_elem (s : string) :
  s ∈ strangers_people ↔ s = "A" ∨ s = "B".
Proof.
  unfold strangers_people. rewrite !elem_of_union, !elem_of_singleton. tauto.
Qed.

Lemma strangers_closed : closed strangers strangers_people.
Proof.
  intros s a t Hs. apply strangers_people_elem in Hs.
  rewrite strangers_people_elem.
  destruct Hs as [-> | ->]; unfold strangers; simpl;
    rewrite !elem_of_cons, elem_of_nil;
    intros [Heq|[]]; injection Heq as -> ->; auto.
Qed.

Lemma strangers_A : "A" ∈ strangers_people.
Proof. apply strangers_people_elem. by left. Qed.

Lemma strangers_size : (size strangers_people < 3)%nat.
Proof. vm_compute. lia. Qed.

Lemma strangers_walk_from_A k (s t : string) :
  walk strangers k s t → s = "A" → t = "A".
Proof.
  induction 1 as [s|k s m t Hw IH [a Ha]]; [done|].
  intros Hs. rewrite (IH Hs) in Ha. unfold strangers in Ha. simpl in Ha.
  apply list_elem_of_singleton in Ha. by injection Ha.
Qed.

Lemma strangers_apart : ¬ reachable strangers "A" "B".
Proof.
  intros [k Hw]. by pose proof (strangers_walk_from_A k "A" "B" Hw eq_refl).
Qed.

(** The runs on the triangle: with a queue the direct hop from A to C, and
    the hop to B. *)
Example queue_search_A_C :
  shortest_path_with triangle QueueFrontier "A" "C" 4
  = Returned (Some [(Some "m3", "C")]) {["A"; "B"]} 3.
Proof. by vm_compute. Qed.

Example queue_search_A_B :
  shortest_path_with triangle QueueFrontier "A" "B" 4
  = Returned (Some [(Some "m1", "B")]) {["A"]} 2.
Proof. by vm_compute. Qed.

Example stack_search_A_B :
  shortest_path triangle "A" "B" 4
  = Returned (Some [(Some "m1", "B")]) {["A"; "C"]} 3.
Proof. by vm_compute. Qed.

Example A_STAR_search_A_C :
  shortest_path_A_STAR triangle "A" "C" (fun _ => 0) 4
  = Returned (Some [(Some "m3", "C")]) {["A"; "B"]} 3.
Proof. by vm_compute. Qed.

Example stack_search_strangers :
  shortest_path strangers "A" "B" 3 = Returned None {["A"]} 1.
Proof. by vm_compute. Qed.

(** Of two nodes with the lowest [f] the one added first is popped. *)
Example AStarFrontier_remove_tie :
  remove AStarFrontier
    [mkNode "A" None (None : option string) 3 3; mkNode "B" None None 1 1;
     mkNode "C" None None 1 1]
  = inr (mkNode "B" None None 1 1,
         [mkNode "A" None None 3 3; mkNode "C" None None 1 1]).
Proof. reflexivity. Qed.


(** Both search functions from A to B among the strangers. *)
Lemma no_path_returns_None_with_reachable_explored_witness :
  closed strangers strangers_people ∧ "A" ∈ strangers_people
  ∧ (size strangers_people < 3)%nat ∧ ¬ reachable strangers "A" "B"
  ∧ (∃ explored n,
        shortest_path_with strangers StackFrontier "A" "B" 3
        = Returned None explored n
        ∧ ∀ s, s ∈ explored ↔ reachable strangers "A" s)
  ∧ (∃ explored n,
        shortest_path_A_STAR strangers "A" "B" (fun _ => 0) 3
        = Returned None explored n
        ∧ ∀ s, s ∈ explored ↔ reachable strangers "A" s).
Proof.
  split_and!;
    [ apply strangers_closed | apply strangers_A | apply strangers_size
    | apply strangers_apart | | ];
    apply (no_path_returns_None_with_reachable_explored strangers
             strangers_people "A" "B" 3 StackFrontier (fun _ => 0));
    [ apply strangers_closed | apply strangers_A | apply strangers_size
    | apply strangers_apart
    | apply strangers_closed | apply strangers_A | apply strangers_size
    | apply strangers_apart ].
Defined.

(** A* with the zero heuristic and the queue, from A to C in the triangle. *)
Lemma A_STAR_zero_heuristic_same_length_as_queue_witness :
  closed triangle triangle_people ∧ "A" ∈ triangle_people
  ∧ (size triangle_people < 4)%nat
  ∧ ∃ res1 explored1 n1 res2 explored2 n2,
      shortest_path_A_STAR triangle "A" "C" (fun _ => 0) 4
      = Returned res1 explored1 n1
      ∧ shortest_path_with triangle QueueFrontier "A" "C" 4
        = Returned res2 explored2 n2
      ∧ length <$> res1 = length <$> res2.
Proof.
  split_and!; [apply triangle_closed | apply triangle_A | apply triangle_size |].
  apply (A_STAR_zero_heuristic_same_length_as_queue triangle triangle_people
           "A" "C" 4).
  - apply triangle_closed.
  - apply triangle_A.
  - apply triangle_size.
Defined.

(** [shortest_path] from A to C in the triangle. *)
Lemma stack_search_terminates_with_some_path_witness :
  closed triangle triangle_people ∧ "A" ∈ triangle_people
  ∧ (size triangle_people < 4)%nat
  ∧ ∃ res explored n,
      shortest_path triangle "A" "C" 4 = Returned res explored n
      ∧ (∀ path, res = Some path → path_from triangle "A" path "C")
      ∧ (reachable triangle "A" "C" → ∃ path, res = Some path)
      ∧ (res = None ↔ ¬ reachable triangle "A" "C").
Proof.
  split_and!; [apply triangle_closed | apply triangle_A | apply triangle_size |].
  apply (stack_search_terminates_with_some_path triangle triangle_people
           "A" "C" 4).
  - apply triangle_closed.
  - apply triangle_A.
  - apply triangle_size.
Defined.

(** A queue after [add A; add B; remove]: A has left, B is held. *)
Lemma contains_state_reflects_contents_witness :
  let A : Node string string := mkNode "A" None None 0 0 in
  let B : Node string string := mkNode "B" None None 0 0 in
  let ks := [CallAdd A; CallAdd B; CallRemove] in
  added ks ≡ₚ handed_out QueueFrontier new_frontier ks ++ [B]
  ∧ do_calls QueueFrontier ks ≡ₚ [B]
  ∧ (contains_state (do_calls QueueFrontier ks) "A" = true
     ↔ ∃ node, node ∈ [B] ∧ state node = "A").
Proof.
  intros A B ks.
  assert (added ks ≡ₚ handed_out QueueFrontier new_frontier ks ++ [B]) as Hheld.
  { reflexivity. }
  split; [exact Hheld|].
  exact (contains_state_reflects_contents QueueFrontier ks "A" [B] Hheld).
Defined.

(** A node that has left is no longer answered for, in any class. *)
Example contains_state_after_leaving (c : FrontierClass) :
  contains_state
    (do_calls c [CallAdd (mkNode "A" None (None : option string) 0 0);
                 CallRemove]) "A"
  = false.
Proof. by destruct c. Qed.

(** A frontier whose lowest [f] occurs twice. *)
Lemma AStarFrontier_remove_first_lowest_f_witness :
  let frontier : list (Node string string) :=
    [mkNode "A" None None 3 3; mkNode "B" None None 1 1;
     mkNode "C" None None 1 1] in
  frontier ≠ []
  ∧ ∃ i node,
      remove AStarFrontier frontier = inr (node, delete i frontier)
      ∧ frontier !! i = Some node
      ∧ (∀ j m, frontier !! j = Some m → f node ≤ f m)
      ∧ (∀ j m, (j < i)%nat → frontier !! j = Some m → f node < f m).
Proof.
  intros frontier. split; [done|].
  apply (AStarFrontier_remove_first_lowest_f frontier). done.
Defined.

(** * Further properties of the frontiers *)

Section MoreUtilFacts.

Context {State Action : Type} {State_eq : EqDecision State}
        {State_countable : Countable State}.

Local Abbreviation Node := (Node State Action).
Implicit Types (frontier : list Node) (node : Node) (c : FrontierClass).

(** X1.  A [StackFrontier] hands back the node added last and is then as it
    was before that node was added. *)
Theorem StackFrontier_remove_undoes_add frontier node :
  remove StackFrontier (add frontier node) = inr (node, frontier).
Proof. unfold add. apply remove_Stack. Qed.

(** X2.  A [QueueFrontier] hands out the node that has waited longest: after
    an [add], [remove] takes the first node of the old frontier and the new
    node stays behind at the back; only on a frontier that was empty does the
    new node come out at once. *)
Theorem QueueFrontier_remove_after_add frontier node :
  remove QueueFrontier (add frontier node)
  = inr (match frontier with
         | [] => (node, [])
         | first :: rest => (first, add rest node)
         end).
Proof.
  destruct frontier as [|first rest]; [done|].
  unfold add. simpl. apply remove_Queue.
Qed.

(** X3.  [remove] raises exactly on the empty frontier, in all three
    classes; on any other it hands out a node. *)
Theorem remove_raises_iff_empty c frontier :
  (remove c frontier = inl (Exception "empty frontier") ↔ empty frontier = true)
  ∧ ((∃ node frontier', remove c frontier = inr (node, frontier'))
     ↔ empty frontier = false).
Proof.
  destruct frontier as [|d rest].
  - split; split; try done. by intros (node & frontier' & Hrm).
  - destruct (remove_nonempty c (d :: rest)) as (node & frontier' & Hrm); [done|].
    split; split; try done.
    + rewrite Hrm. done.
    + intros _. by exists node, frontier'.
Qed.

(** X4.  A [remove] that succeeds takes exactly one node out of the list:
    the others stay, in their order, and the list is one shorter. *)
Theorem remove_takes_one_node_out c frontier node frontier' :
  remove c frontier = inr (node, frontier') →
  (∃ l1 l2, frontier = l1 ++ node :: l2 ∧ frontier' = l1 ++ l2)
  ∧ length frontier = S (length frontier').
Proof.
  intros Hrm. destruct (remove_split c _ _ _ Hrm) as (l1 & l2 & -> & ->).
  split; [by exists l1, l2|]. rewrite !length_app. simpl. lia.
Qed.

(** X5.  Two [remove] calls in a row on an [AStarFrontier] hand out nodes in
    the order of their [f]: the second is not lower than the first. *)
Theorem AStarFrontier_removes_in_f_order frontier n1 frontier1 n2 frontier2 :
  remove AStarFrontier frontier = inr (n1, frontier1) →
  remove AStarFrontier frontier1 = inr (n2, frontier2) →
  f n1 ≤ f n2.
Proof.
  intros Hrm1 Hrm2.
  destruct (remove_split _ _ _ _ Hrm1) as (l1 & l2 & Hfr & Hfr1).
  destruct (remove_split _ _ _ _ Hrm2) as (k1 & k2 & Hfr1' & _).
  assert (n2 ∈ frontier) as Hin.
  { rewrite Hfr. assert (n2 ∈ frontier1) as Hin1.
    { rewrite Hfr1'. rewrite elem_of_app, elem_of_cons. auto. }
    rewrite Hfr1 in Hin1. rewrite elem_of_app, elem_of_cons.
    apply elem_of_app in Hin1 as [Hin1|Hin1]; auto. }
  destruct frontier as [|d rest]; [done|].
  rewrite remove_AStar in Hrm1.
  assert (nth (lowest_index (d :: rest) d) (d :: rest) d = n1) as Hn1
    by congruence.
  destruct (lowest_index_spec d rest) as (_ & _ & Hall).
  apply list_elem_of_lookup in Hin as [j Hj].
  pose proof (lookup_lt_Some _ _ _ Hj) as Hjlt. specialize (Hall j Hjlt).
  rewrite Hn1, (nth_lookup (d :: rest) j), Hj in Hall. done.
Qed.

(** X6.  When all nodes carry the same [f], an [AStarFrontier] removes like
    a [QueueFrontier]. *)
Theorem AStarFrontier_is_a_queue_on_equal_f frontier (k : Z) :
  Forall (fun m => f m = k) frontier →
  remove AStarFrontier frontier = remove QueueFrontier frontier.
Proof.
  intros Hall. destruct frontier as [|d rest]; [done|].
  apply Forall_cons in Hall as [Hd Hrest].
  rewrite remove_Queue. apply remove_AStar_head.
  eapply Forall_impl; [exact Hrest|]. simpl. intros m Hm. lia.
Qed.

(** X7.  On a frontier that holds every state at most once, a [remove]
    makes [contains_state] false for the state of the node handed out and
    leaves it as it was for every other state. *)
Theorem contains_state_after_remove c frontier node frontier' (s : State) :
  NoDup (state <$> frontier) →
  remove c frontier = inr (node, frontier') →
  contains_state frontier' s
  = contains_state frontier s && negb (bool_decide (s = state node)).
Proof.
  intros Hnd Hrm. pose proof (remove_split c _ _ _ Hrm) as Hout.
  destruct (taken_out_NoDup _ _ _ Hout Hnd) as [Hnot _].
  apply eq_true_iff_eq.
  rewrite andb_true_iff, negb_true_iff, bool_decide_eq_false.
  rewrite !contains_state_fmap,
    (taken_out_state (fun _ => []) s _ _ _ s Hout).
  split.
  - intros Hin. split; [by right|]. intros ->. by apply Hnot.
  - intros [[Heq|Hin] Hne]; [by destruct Hne|done].
Qed.

End MoreUtilFacts.

(** * Further properties of the search loop *)

Section MoreSearchFacts.

Context {State Action : Type} {State_eq : EqDecision State}
        {State_countable : Countable State}.

Local Abbreviation Node := (Node State Action).

Variable neighbors : State → list (Action * State).
Variables source target : State.

Local Abbreviation walk := (walk neighbors).
Local Abbreviation reachable := (reachable neighbors).
Local Abbreviation wf_node := (wf_node neighbors source).
Local Abbreviation inv := (inv neighbors source target).

Implicit Types (frontier : list Node) (node : Node) (explored : gset State).

Variable child : Node → Action → State → Node.
Hypothesis child_shape :
  ∀ n a s, ∃ g f, child n a s = mkNode s (Some n) (Some a) g f.

Variable c : FrontierClass.

(** What a run that returns tells, with any fuel and on any graph. *)
Lemma search_loop_returned (J : list Node → gset State → Prop) (Q : Node → Prop)
    fuel frontier explored n res explored' n' :
  (∀ frontier explored node frontier',
      inv frontier explored → J frontier explored →
      remove c frontier = inr (node, frontier') →
      Q node
      ∧ (state node ≠ target →
         J (expand neighbors child node (explored ∪ {[state node]}) frontier')
           (explored ∪ {[state node]}))) →
  inv frontier explored → J frontier explored →
  search_loop neighbors c child target fuel frontier explored n
  = Returned res explored' n' →
  (∀ s, s ∈ explored' → reachable source s)
  ∧ (target ∉ explored')
  ∧ (n' + size explored
     = n + size explored' + match res with Some _ => 1 | None => 0 end)%nat
  ∧ match res with
    | Some path =>
        ∃ node, wf_node node ∧ state node = target ∧ Q node
                ∧ path = reconstruct node
    | None => True
    end.
Proof.
  intros J_step. revert frontier explored n.
  induction fuel as [|fuel IH]; intros frontier explored n Hinv HJ; [done|].
  simpl. destruct (empty frontier) eqn:Hempty.
  - intros [= <- <- <-]. split_and!; [by destruct Hinv..|lia|done].
  - destruct (remove c frontier) as [e|[node frontier']] eqn:Hrm; [done|].
    pose proof (remove_split _ _ _ _ Hrm) as Hout.
    assert (node ∈ frontier) as Hin
      by (apply (taken_out_elem neighbors source _ _ _ _ Hout); by left).
    pose proof (inv_wf _ _ _ _ _ Hinv node Hin) as Hwf.
    destruct (J_step _ _ _ _ Hinv HJ Hrm) as [HQ HJ'].
    case_bool_decide as Htarget.
    + intros [= <- <- <-]. split_and!; [by destruct Hinv..|lia|].
      by exists node.
    + intros Hrun.
      apply IH in Hrun as (Hreach & Htgt & Hcount & Hres).
      * split_and!; [done..| |done].
        pose proof (inv_fresh _ _ _ _ _ Hinv node Hin) as Hfresh.
        rewrite size_union, size_singleton in Hcount; [lia|].
        intros x Hx Hx'%elem_of_singleton. by subst x.
      * by apply (inv_step neighbors source target child child_shape) with frontier.
      * by apply HJ'.
Qed.

Lemma ancestors_walk_back node :
  wf_node node →
  state node :: ancestors node = (snd <$> walk_back node) ++ [source].
Proof.
  induction 1 as [a g f|p s a g f Hp IH Ha]; simpl; [done|].
  by rewrite IH.
Qed.

Lemma simple_inv_step frontier explored node frontier' :
  inv frontier explored → simple_inv frontier explored →
  remove c frontier = inr (node, frontier') →
  NoDup (state node :: ancestors node)
  ∧ (state node ≠ target →
     simple_inv (expand neighbors child node (explored ∪ {[state node]}) frontier')
                (explored ∪ {[state node]})).
Proof.
  intros Hinv Hsimple Hrm. pose proof (remove_split _ _ _ _ Hrm) as Hout.
  assert (node ∈ frontier) as Hin
    by (apply (taken_out_elem neighbors source _ _ _ _ Hout); by left).
  destruct (Hsimple node Hin) as [Hanc Hnd].
  pose proof (inv_fresh _ _ _ _ _ Hinv node Hin) as Hfresh.
  assert (NoDup (state node :: ancestors node)) as HQ.
  { apply NoDup_cons. split; [|done]. intros Hs. by apply Hfresh, Hanc. }
  split; [done|]. intros _.
  destruct (expand_spec neighbors child child_shape node
              (explored ∪ {[state node]}) frontier')
    as (kids & -> & Hkids & _).
  intros k [Hk|Hk]%elem_of_app.
  - assert (k ∈ frontier) as Hk'
      by (apply (taken_out_elem neighbors source _ _ _ _ Hout); by right).
    destruct (Hsimple k Hk') as [Hanck Hndk]. split; [|done].
    intros s Hs. apply elem_of_union. left. by apply Hanck.
  - destruct (Hkids k Hk) as (a & _ & ->).
    destruct (child_shape node a (state k)) as (g & f & ->). simpl.
    split; [|done]. intros s [->|Hs]%elem_of_cons.
    + apply elem_of_union. right. by apply elem_of_singleton.
    + apply elem_of_union. left. by apply Hanc.
Qed.

(** What either search function tells when it returns: [start] is its
    start node. *)
Lemma search_returned start fuel res explored n :
  state start = source → parent start = None →
  search_loop neighbors c child target fuel (add new_frontier start) ∅ 0
  = Returned res explored n →
  (∀ s, s ∈ explored → reachable source s)
  ∧ (target ∉ explored)
  ∧ n = (size explored + match res with Some _ => 1 | None => 0 end)%nat
  ∧ match res with
    | Some path => path_from neighbors source path target
                   ∧ NoDup (source :: (snd <$> path))
    | None => True
    end.
Proof.
  intros Hs Hp Hrun.
  apply (search_loop_returned simple_inv
           (fun node => NoDup (state node :: ancestors node)))
    in Hrun as (Hreach & Htgt & Hcount & Hres).
  - split_and!; [done..| |].
    + rewrite size_empty in Hcount. lia.
    + destruct res as [path|]; [|done].
      destruct Hres as (node & Hwf & Hst & Hnd & ->). split.
      * rewrite <- Hst. by apply wf_node_path.
      * rewrite (ancestors_walk_back node Hwf) in Hnd.
        unfold reconstruct. rewrite fmap_reverse.
        apply NoDup_cons. apply NoDup_app in Hnd as (Hnd1 & Hdisj & _).
        split; [|by rewrite reverse_Permutation].
        rewrite elem_of_reverse. intros Hin. apply (Hdisj _ Hin). left.
  - intros frontier0 explored0 node frontier' Hinv HJ Hrm.
    by apply simple_inv_step with frontier0.
  - by apply (inv_start neighbors source target).
  - intros k ->%list_elem_of_singleton.
    destruct start as [s [p|] a g f]; simpl in *; [done|].
    split; [|constructor]. intros x Hx. by apply elem_of_nil in Hx.
Qed.

End MoreSearchFacts.

Section MoreSearchClaims.

Context {State Action : Type} {State_eq : EqDecision State}
        {State_countable : Countable State}.

Variable neighbors : State → list (Action * State).

(** Either search function of the source, when it returns. *)
Lemma either_search_returned (c : FrontierClass) (h : State → Z)
    (source target : State) (fuel : nat) (run : outcome) res explored n :
  run = shortest_path_with neighbors c source target fuel
  ∨ run = shortest_path_A_STAR neighbors source target h fuel →
  run = Returned res explored n →
  (∀ s, s ∈ explored → reachable neighbors source s)
  ∧ (target ∉ explored)
  ∧ n = (size explored + match res with Some _ => 1 | None => 0 end)%nat
  ∧ match res with
    | Some path => path_from neighbors source path target
                   ∧ NoDup (source :: (snd <$> path))
    | None => True
    end.
Proof.
  intros [->| ->] Hrun.
  - by apply (search_returned neighbors source target child_plain
                child_plain_shape c (mkNode source None None 0 0) fuel).
  - by apply (search_returned neighbors source target (child_A_STAR h)
                (child_A_STAR_shape h) AStarFrontier
                (mkNode source None None 0 (h source)) fuel).
Qed.

(** X8.  [shortest_path_A_STAR] with the zero heuristic, which is how
    [main] calls it, returns a path of least length whenever the target can
    be reached in a finite graph. *)
Theorem A_STAR_zero_heuristic_returns_shortest_path
    (V : gset State) (source target : State) (fuel : nat) :
  closed neighbors V → source ∈ V → (size V < fuel)%nat →
  reachable neighbors source target →
  ∃ path explored n,
    shortest_path_A_STAR neighbors source target (fun _ => 0) fuel
    = Returned (Some path) explored n
    ∧ path_from neighbors source path target
    ∧ distance neighbors source target (length path).
Proof.
  intros HV Hsrc Hfuel Hreach.
  destruct (A_STAR_zero_search neighbors V source target fuel HV Hsrc Hfuel)
    as (res & explored & n & Hrun & Hres).
  destruct res as [path|].
  - exists path, explored, n. by destruct Hres.
  - by destruct Hres as [_ Hnot].
Qed.

(** X9.  The counter [nodes_explored] that both search functions print is
    the number of states in [explored], plus one for the target when a path
    is returned. *)
Theorem nodes_explored_counts_explored_states
    (c : FrontierClass) (h : State → Z) (source target : State) (fuel : nat)
    (run : outcome) res explored n :
  run = shortest_path_with neighbors c source target fuel
  ∨ run = shortest_path_A_STAR neighbors source target h fuel →
  run = Returned res explored n →
  n = (size explored + match res with Some _ => 1 | None => 0 end)%nat.
Proof.
  intros Hwhich Hrun.
  by destruct (either_search_returned c h source target fuel run
                 res explored n Hwhich Hrun) as (_ & _ & Hn & _).
Qed.

(** X10.  A path returned by either search function visits no state twice
    and does not come back to the source. *)
Theorem returned_path_is_simple
    (c : FrontierClass) (h : State → Z) (source target : State) (fuel : nat)
    (run : outcome) path explored n :
  run = shortest_path_with neighbors c source target fuel
  ∨ run = shortest_path_A_STAR neighbors source target h fuel →
  run = Returned (Some path) explored n →
  NoDup (source :: (snd <$> path)).
Proof.
  intros Hwhich Hrun.
  by destruct (either_search_returned c h source target fuel run
                 (Some path) explored n Hwhich Hrun) as (_ & _ & _ & _ & Hnd).
Qed.

(** X11.  On a finite graph neither search function explores more nodes
    than the graph has vertices, and [explored] stays inside the graph. *)
Theorem nodes_explored_bounded_by_vertices
    (V : gset State) (c : FrontierClass) (h : State → Z)
    (source target : State) (fuel : nat) (run : outcome) res explored n :
  closed neighbors V → source ∈ V →
  run = shortest_path_with neighbors c source target fuel
  ∨ run = shortest_path_A_STAR neighbors source target h fuel →
  run = Returned res explored n →
  explored ⊆ V ∧ (n ≤ size V)%nat.
Proof.
  intros HV Hsrc Hwhich Hrun.
  destruct (either_search_returned c h source target fuel run
              res explored n Hwhich Hrun) as (Hreach & Htgt & -> & Hres).
  assert (explored ⊆ V) as Hsub.
  { intros s [k Hk]%Hreach. by apply (walk_closed neighbors V k source s). }
  split; [done|]. destruct res as [path|].
  - destruct Hres as [Hpath _].
    assert (target ∈ V) as HtV.
    { apply path_from_walk in Hpath.
      by apply (walk_closed neighbors V (length path) source target). }
    assert (explored ⊂ V) as Hstrict.
    { apply strict_spec. split; [done|]. intros HVsub.
      by apply Htgt, HVsub. }
    apply subset_size in Hstrict. lia.
  - apply subseteq_size in Hsub. lia.
Qed.

(** X12.  On a finite graph both search functions return, whatever the
    class of the frontier and whatever the heuristic: a path along edges of
    the graph from source to target, or [None] exactly when there is no such
    path. *)
Theorem every_search_returns_a_path_or_None
    (V : gset State) (c : FrontierClass) (h : State → Z)
    (source target : State) (fuel : nat) :
  closed neighbors V → source ∈ V → (size V < fuel)%nat →
  (∃ res explored n,
      shortest_path_with neighbors c source target fuel
      = Returned res explored n
      ∧ (∀ path, res = Some path → path_from neighbors source path target)
      ∧ (res = None ↔ ¬ reachable neighbors source target))
  ∧ (∃ res explored n,
      shortest_path_A_STAR neighbors source target h fuel
      = Returned res explored n
      ∧ (∀ path, res = Some path → path_from neighbors source path target)
      ∧ (res = None ↔ ¬ reachable neighbors source target)).
Proof.
  intros HV Hsrc Hfuel. split.
  - destruct (search_loop_any neighbors source target child_plain
                child_plain_shape c V fuel (mkNode source None None 0 0))
      as (res & explored & n & Hrun & Hres); try done.
    exists res, explored, n. split; [done|]. destruct res as [path|].
    + split; [by intros p [= <-]|]. split; [done|]. intros Hnot.
      destruct Hnot. by apply path_from_reachable with path.
    + destruct Hres as [_ Hnot]. by split.
  - destruct (search_loop_any neighbors source target (child_A_STAR h)
                (child_A_STAR_shape h) AStarFrontier V fuel
                (mkNode source None None 0 (h source)))
      as (res & explored & n & Hrun & Hres); try done.
    exists res, explored, n. split; [done|]. destruct res as [path|].
    + split; [by intros p [= <-]|]. split; [done|]. intros Hnot.
      destruct Hnot. by apply path_from_reachable with path.
    + destruct Hres as [_ Hnot]. by split.
Qed.

End MoreSearchClaims.

(** * Further properties of the tables *)

Lemma load_people_movies rows (t : tables) :
  movies (fold_left load_person rows t) = movies t.
Proof.
  revert t. induction rows as [|row rows IH]; intros t; [done|].
  simpl. by rewrite IH.
Qed.

Lemma load_movies_people rows (t : tables) :
  people (fold_left load_movie rows t) = people t.
Proof.
  revert t. induction rows as [|row rows IH]; intros t; [done|].
  simpl. by rewrite IH.
Qed.

Lemma load_people_lookup rows (t : tables) (id : string) :
  (is_Some (people (fold_left load_person rows t) !! id)
   ↔ is_Some (people t !! id) ∨ ∃ row, row ∈ rows ∧ pr_id row = id)
  ∧ ∀ p, people (fold_left load_person rows t) !! id = Some p →
         people t !! id = Some p
         ∨ ∃ row, row ∈ rows ∧ pr_id row = id
                  ∧ p = mkPerson (pr_name row) (pr_birth row) ∅.
Proof.
  revert t. induction rows as [|row rows IH]; intros t; simpl.
  - split; [|by left]. split; [by left|].
    intros [Hs|(row & Hrow & _)]; [done|]. by apply elem_of_nil in Hrow.
  - destruct (IH (load_person t row)) as [IH1 IH2]. split.
    + rewrite IH1. unfold load_person. simpl.
      rewrite lookup_insert_is_Some. split.
      * intros [[Heq|[_ Hs]]|(r & Hr & Hid)].
        -- right. exists row. split; [left|done].
        -- by left.
        -- right. exists r. split; [by right|done].
      * intros [Hs|(r & [->|Hr]%elem_of_cons & Hid)].
        -- left. destruct (decide (pr_id row = id)); [by left|by right].
        -- left. by left.
        -- right. by exists r.
    + intros p Hp. destruct (IH2 p Hp) as [Hp0|(r & Hr & Hid & Hpr)].
      * unfold load_person in Hp0. simpl in Hp0.
        destruct (decide (pr_id row = id)) as [Heq|Hne].
        -- rewrite Heq, lookup_insert_eq in Hp0. injection Hp0 as <-.
           right. exists row. split; [left|done].
        -- rewrite lookup_insert_ne in Hp0 by done. by left.
      * right. exists r. split; [by right|done].
Qed.

Lemma load_movies_lookup rows (t : tables) (id : string) :
  (is_Some (movies (fold_left load_movie rows t) !! id)
   ↔ is_Some (movies t !! id) ∨ ∃ row, row ∈ rows ∧ mr_id row = id)
  ∧ ∀ m, movies (fold_left load_movie rows t) !! id = Some m →
         movies t !! id = Some m
         ∨ ∃ row, row ∈ rows ∧ mr_id row = id
                  ∧ m = mkMovie (mr_title row) (mr_year row) ∅.
Proof.
  revert t. induction rows as [|row rows IH]; intros t; simpl.
  - split; [|by left]. split; [by left|].
    intros [Hs|(row & Hrow & _)]; [done|]. by apply elem_of_nil in Hrow.
  - destruct (IH (load_movie t row)) as [IH1 IH2]. split.
    + rewrite IH1. unfold load_movie. simpl.
      rewrite lookup_insert_is_Some. split.
      * intros [[Heq|[_ Hs]]|(r & Hr & Hid)].
        -- right. exists row. split; [left|done].
        -- by left.
        -- right. exists r. split; [by right|done].
      * intros [Hs|(r & [->|Hr]%elem_of_cons & Hid)].
        -- left. destruct (decide (mr_id row = id)); [by left|by right].
        -- left. by left.
        -- right. by exists r.
    + intros m Hm. destruct (IH2 m Hm) as [Hm0|(r & Hr & Hid & Hmr)].
      * unfold load_movie in Hm0. simpl in Hm0.
        destruct (decide (mr_id row = id)) as [Heq|Hne].
        -- rewrite Heq, lookup_insert_eq in Hm0. injection Hm0 as <-.
           right. exists row. split; [left|done].
        -- rewrite lookup_insert_ne in Hm0 by done. by left.
      * right. exists r. split; [by right|done].
Qed.

(** One row of [stars.csv]: no key comes or goes. *)
Lemma load_star_people_keys (t : tables) row (id : string) :
  is_Some (people (load_star t row) !! id) ↔ is_Some (people t !! id).
Proof.
  unfold load_star.
  destruct (people t !! sr_person_id row) as [p0|] eqn:Hp0; [|done].
  assert (is_Some (<[sr_person_id row :=
                       mkPerson (p_name p0) (p_birth p0)
                                (p_movies p0 ∪ {[sr_movie_id row]})]>
                     (people t) !! id)
          ↔ is_Some (people t !! id)) as Hkeys.
  { rewrite lookup_insert_is_Some. split.
    - intros [<-|[_ Hs]]; [by rewrite Hp0|done].
    - intros Hs. destruct (decide (sr_person_id row = id)); [by left|by right]. }
  by destruct (movies t !! sr_movie_id row).
Qed.

Lemma load_star_movies_keys (t : tables) row (id : string) :
  is_Some (movies (load_star t row) !! id) ↔ is_Some (movies t !! id).
Proof.
  unfold load_star.
  destruct (people t !! sr_person_id row) as [p0|] eqn:Hp0; [|done].
  destruct (movies t !! sr_movie_id row) as [m0|] eqn:Hm0; [|done].
  simpl. rewrite lookup_insert_is_Some. split.
  - intros [<-|[_ Hs]]; [by rewrite Hm0|done].
  - intros Hs. destruct (decide (sr_movie_id row = id)); [by left|by right].
Qed.

(** One row of [stars.csv], seen from a person. *)
Lemma load_star_person (t : tables) row (id : string) (p1 : person) :
  people (load_star t row) !! id = Some p1 →
  ∃ p0, people t !! id = Some p0
        ∧ p_name p1 = p_name p0 ∧ p_birth p1 = p_birth p0
        ∧ ∀ mid, mid ∈ p_movies p1
                 ↔ mid ∈ p_movies p0
                   ∨ (sr_person_id row = id ∧ sr_movie_id row = mid).
Proof.
  unfold load_star.
  destruct (people t !! sr_person_id row) as [p0|] eqn:Hp0.
  - assert (<[sr_person_id row :=
                mkPerson (p_name p0) (p_birth p0)
                         (p_movies p0 ∪ {[sr_movie_id row]})]>
              (people t) !! id = Some p1 →
            ∃ p0, people t !! id = Some p0
                  ∧ p_name p1 = p_name p0 ∧ p_birth p1 = p_birth p0
                  ∧ ∀ mid, mid ∈ p_movies p1
                           ↔ mid ∈ p_movies p0
                             ∨ (sr_person_id row = id ∧ sr_movie_id row = mid))
      as Hstep.
    { destruct (decide (sr_person_id row = id)) as [Heq|Hne].
      - rewrite Heq, lookup_insert_eq. intros [= <-]. exists p0.
        rewrite <- Heq. split_and!; [done..|]. intros mid. simpl.
        rewrite elem_of_union, elem_of_singleton. split.
        + intros [Hin|Hmid]; [by left|by right].
        + intros [Hin|[_ Hmid]]; [by left|by right].
      - rewrite lookup_insert_ne by done. intros Hp1. exists p1.
        split_and!; [done..|]. intros mid. split; [by left|].
        intros [Hin|[Heq _]]; [done|by destruct Hne]. }
    by destruct (movies t !! sr_movie_id row).
  - intros Hp1. exists p1. split_and!; [done..|]. intros mid.
    split; [by left|]. intros [Hin|[Heq _]]; [done|].
    rewrite Heq, Hp1 in Hp0. done.
Qed.

(** One row of [stars.csv], seen from a movie. *)
Lemma load_star_movie (t : tables) row (mid : string) (m1 : movie) :
  movies (load_star t row) !! mid = Some m1 →
  ∃ m0, movies t !! mid = Some m0
        ∧ m_title m1 = m_title m0 ∧ m_year m1 = m_year m0
        ∧ ∀ pid, pid ∈ m_stars m1
                 ↔ pid ∈ m_stars m0
                   ∨ (sr_movie_id row = mid ∧ sr_person_id row = pid
                      ∧ is_Some (people t !! pid)).
Proof.
  unfold load_star.
  destruct (people t !! sr_person_id row) as [p0|] eqn:Hp0.
  - destruct (movies t !! sr_movie_id row) as [m0|] eqn:Hm0; simpl.
    + destruct (decide (sr_movie_id row = mid)) as [Heq|Hne].
      * rewrite Heq, lookup_insert_eq. intros [= <-]. exists m0.
        rewrite <- Heq. split_and!; [done..|]. intros pid. simpl.
        rewrite elem_of_union, elem_of_singleton. split.
        -- intros [Hin | ->]; [by left|]. right. by rewrite Hp0.
        -- intros [Hin|(_ & Hpid & _)]; [by left|by right].
      * rewrite lookup_insert_ne by done. intros Hm1. exists m1.
        split_and!; [done..|]. intros pid. split; [by left|].
        intros [Hin|[Heq _]]; [done|by destruct Hne].
    + intros Hm1. exists m1. split_and!; [done..|]. intros pid.
      split; [by left|]. intros [Hin|(Heq & _)]; [done|].
      rewrite Heq, Hm1 in Hm0. done.
  - intros Hm1. exists m1. split_and!; [done..|]. intros pid.
    split; [by left|]. intros [Hin|(_ & Heq & Hs)]; [done|].
    rewrite <- Heq, Hp0 in Hs. by destruct Hs.
Qed.

Lemma load_stars_people_keys rows (t : tables) (id : string) :
  is_Some (people (fold_left load_star rows t) !! id) ↔ is_Some (people t !! id).
Proof.
  revert t. induction rows as [|row rows IH]; intros t; [done|].
  simpl. by rewrite IH, load_star_people_keys.
Qed.

Lemma load_stars_movies_keys rows (t : tables) (id : string) :
  is_Some (movies (fold_left load_star rows t) !! id) ↔ is_Some (movies t !! id).
Proof.
  revert t. induction rows as [|row rows IH]; intros t; [done|].
  simpl. by rewrite IH, load_star_movies_keys.
Qed.

(** All of [stars.csv], seen from a person. *)
Lemma load_stars_person rows (t : tables) (id : string) (p1 : person) :
  people (fold_left load_star rows t) !! id = Some p1 →
  ∃ p0, people t !! id = Some p0
        ∧ p_name p1 = p_name p0 ∧ p_birth p1 = p_birth p0
        ∧ ∀ mid, mid ∈ p_movies p1
                 ↔ mid ∈ p_movies p0
                   ∨ ∃ row, row ∈ rows ∧ sr_person_id row = id
                            ∧ sr_movie_id row = mid.
Proof.
  revert t. induction rows as [|row rows IH]; intros t; simpl.
  - intros Hp1. exists p1. split_and!; [done..|]. intros mid.
    split; [by left|]. intros [Hin|(r & Hr & _)]; [done|].
    by apply elem_of_nil in Hr.
  - intros Hp1. destruct (IH _ Hp1) as (p & Hp & Hname & Hbirth & Hmovies).
    destruct (load_star_person _ _ _ _ Hp) as (p0 & Hp0 & Hname0 & Hbirth0 & Hstep).
    exists p0. split_and!; [done|congruence|congruence|]. intros mid.
    rewrite Hmovies, Hstep. split.
    + intros [[Hin|[Hid Hmid]]|(r & Hr & Hid & Hmid)].
      * by left.
      * right. exists row. split; [left|done].
      * right. exists r. split; [by right|done].
    + intros [Hin|(r & [->|Hr]%elem_of_cons & Hid & Hmid)].
      * left. by left.
      * left. by right.
      * right. by exists r.
Qed.

(** All of [stars.csv], seen from a movie. *)
Lemma load_stars_movie rows (t : tables) (mid : string) (m1 : movie) :
  movies (fold_left load_star rows t) !! mid = Some m1 →
  ∃ m0, movies t !! mid = Some m0
        ∧ m_title m1 = m_title m0 ∧ m_year m1 = m_year m0
        ∧ ∀ pid, pid ∈ m_stars m1
                 ↔ pid ∈ m_stars m0
                   ∨ ∃ row, row ∈ rows ∧ sr_movie_id row = mid
                            ∧ sr_person_id row = pid
                            ∧ is_Some (people t !! pid).
Proof.
  revert t. induction rows as [|row rows IH]; intros t; simpl.
  - intros Hm1. exists m1. split_and!; [done..|]. intros pid.
    split; [by left|]. intros [Hin|(r & Hr & _)]; [done|].
    by apply elem_of_nil in Hr.
  - intros Hm1. destruct (IH _ Hm1) as (m & Hm & Htitle & Hyear & Hstars).
    destruct (load_star_movie _ _ _ _ Hm) as (m0 & Hm0 & Htitle0 & Hyear0 & Hstep).
    exists m0. split_and!; [done|congruence|congruence|]. intros pid.
    rewrite Hstars, Hstep. split.
    + intros [[Hin|(Hmid & Hpid & Hs)]|(r & Hr & Hmid & Hpid & Hs)].
      * by left.
      * right. exists row. split; [left|done].
      * right. exists r. split; [by right|].
        split_and!; [done..|]. by apply load_star_people_keys in Hs.
    + intros [Hin|(r & [->|Hr]%elem_of_cons & Hmid & Hpid & Hs)].
      * left. by left.
      * left. by right.
      * right. exists r. split_and!; [done..|]. by apply load_star_people_keys.
Qed.

(** What [load_data] leaves under a person's key. *)
Lemma loaded_person (dir : directory) (id : string) (p : person) :
  people (load_data dir no_tables) !! id = Some p →
  (∃ row, row ∈ people_csv dir ∧ pr_id row = id
          ∧ p_name p = pr_name row ∧ p_birth p = pr_birth row)
  ∧ ∀ mid, mid ∈ p_movies p
           ↔ ∃ row, row ∈ stars_csv dir ∧ sr_person_id row = id
                    ∧ sr_movie_id row = mid.
Proof.
  unfold load_data. intros Hp.
  destruct (load_stars_person _ _ _ _ Hp) as (p0 & Hp0 & Hname & Hbirth & Hmovies).
  rewrite load_movies_people in Hp0.
  destruct (load_people_lookup (people_csv dir) no_tables id) as [_ Hrow].
  destruct (Hrow p0 Hp0) as [Hempty|(row & Hin & Hid & ->)].
  { unfold no_tables in Hempty. simpl in Hempty. by rewrite lookup_empty in Hempty. }
  split; [by exists row|]. intros mid. rewrite Hmovies. simpl.
  rewrite elem_of_empty. tauto.
Qed.

(** What [load_data] leaves under a movie's key. *)
Lemma loaded_movie (dir : directory) (mid : string) (m : movie) :
  movies (load_data dir no_tables) !! mid = Some m →
  (∃ row, row ∈ movies_csv dir ∧ mr_id row = mid
          ∧ m_title m = mr_title row ∧ m_year m = mr_year row)
  ∧ ∀ pid, pid ∈ m_stars m
           ↔ ∃ row, row ∈ stars_csv dir ∧ sr_movie_id row = mid
                    ∧ sr_person_id row = pid
                    ∧ is_Some (people (load_data dir no_tables) !! pid).
Proof.
  unfold load_data. intros Hm.
  destruct (load_stars_movie _ _ _ _ Hm) as (m0 & Hm0 & Htitle & Hyear & Hstars).
  destruct (load_movies_lookup (movies_csv dir)
              (fold_left load_person (people_csv dir) no_tables) mid)
    as [_ Hrow].
  destruct (Hrow m0 Hm0) as [Hempty|(row & Hin & Hid & ->)].
  { rewrite load_people_movies in Hempty. unfold no_tables in Hempty.
    simpl in Hempty. by rewrite lookup_empty in Hempty. }
  split; [by exists row|]. intros pid. rewrite Hstars. simpl.
  rewrite elem_of_empty. split.
  - intros [[]|(r & Hr & Hmid & Hpid & Hs)]. exists r.
    split_and!; [done..|]. by apply load_stars_people_keys.
  - intros (r & Hr & Hmid & Hpid & Hs). right. exists r.
    split_and!; [done..|]. by apply load_stars_people_keys in Hs.
Qed.

Lemma loaded_people_keys (dir : directory) (id : string) :
  is_Some (people (load_data dir no_tables) !! id)
  ↔ ∃ row, row ∈ people_csv dir ∧ pr_id row = id.
Proof.
  unfold load_data. rewrite load_stars_people_keys, load_movies_people.
  destruct (load_people_lookup (people_csv dir) no_tables id) as [-> _].
  unfold no_tables. simpl. rewrite lookup_empty. split.
  - intros [[x [=]]|Hrow]. done.
  - intros Hrow. by right.
Qed.

Lemma loaded_movies_keys (dir : directory) (id : string) :
  is_Some (movies (load_data dir no_tables) !! id)
  ↔ ∃ row, row ∈ movies_csv dir ∧ mr_id row = id.
Proof.
  unfold load_data. rewrite load_stars_movies_keys.
  destruct (load_movies_lookup (movies_csv dir)
              (fold_left load_person (people_csv dir) no_tables) id) as [-> _].
  rewrite load_people_movies. unfold no_tables. simpl. rewrite lookup_empty.
  split.
  - intros [[x [=]]|Hrow]. done.
  - intros Hrow. by right.
Qed.

(** The loop over [movie_ids] in [neighbors_for_person]. *)
Local Abbreviation neighbors_loop t :=
  (fold_left
     (fun (acc : exn + gset (string * string)) (movie_id : string) =>
        match acc with
        | inl e => inl e
        | inr neighbors =>
            match movies t !! movie_id with
            | None => inl (KeyError movie_id)
            | Some m => inr (add_stars movie_id (m_stars m) neighbors)
            end
        end)).

Lemma neighbors_loop_raised (t : tables) (l : list string) (e : exn) :
  neighbors_loop t l (inl e) = inl e.
Proof. induction l as [|x l IH]; [done|]. simpl. apply IH. Qed.

Lemma neighbors_loop_exact (t : tables) (l : list string)
    (ns0 ns : gset (string * string)) :
  neighbors_loop t l (inr ns0) = inr ns →
  (∀ mid, mid ∈ l → is_Some (movies t !! mid))
  ∧ ∀ a b, (a, b) ∈ ns
           ↔ (a, b) ∈ ns0
             ∨ (a ∈ l ∧ ∃ m, movies t !! a = Some m ∧ b ∈ m_stars m).
Proof.
  revert ns0. induction l as [|x l IH]; intros ns0; simpl.
  - intros [= <-]. split.
    + intros mid Hin. by apply elem_of_nil in Hin.
    + intros a b. split; [by left|]. intros [Hin|[Hin _]]; [done|].
      by apply elem_of_nil in Hin.
  - destruct (movies t !! x) as [m|] eqn:Hm.
    + intros Hrun. destruct (IH _ Hrun) as [Hkeys Hmem]. split.
      * intros mid [->|Hin]%elem_of_cons; [by rewrite Hm|by apply Hkeys].
      * intros a b. rewrite Hmem, add_stars_elem. split.
        -- intros [[Hin|[-> Hb]]|[Hin Hstar]].
           ++ by left.
           ++ right. split; [left|]. by exists m.
           ++ right. split; [by right|done].
        -- intros [Hin|[[->|Hin]%elem_of_cons (m' & Hm' & Hb)]].
           ++ left. by left.
           ++ left. right. split; [done|]. congruence.
           ++ right. split; [done|]. by exists m'.
    + by rewrite neighbors_loop_raised.
Qed.

Lemma neighbors_loop_error (t : tables) (l : list string)
    (ns0 : gset (string * string)) (e : exn) :
  neighbors_loop t l (inr ns0) = inl e →
  ∃ mid, mid ∈ l ∧ movies t !! mid = None ∧ e = KeyError mid.
Proof.
  revert ns0. induction l as [|x l IH]; intros ns0; simpl; [done|].
  destruct (movies t !! x) as [m|] eqn:Hm.
  - intros Hrun. destruct (IH _ Hrun) as (mid & Hin & Hnone & He).
    exists mid. split; [by right|done].
  - rewrite neighbors_loop_raised. intros [= <-]. exists x.
    split; [left|done].
Qed.

Lemma neighbors_loop_total (t : tables) (l : list string)
    (ns0 : gset (string * string)) :
  (∀ mid, mid ∈ l → is_Some (movies t !! mid)) →
  ∃ ns, neighbors_loop t l (inr ns0) = inr ns.
Proof.
  revert ns0. induction l as [|x l IH]; intros ns0 Hkeys; simpl.
  - by exists ns0.
  - destruct (Hkeys x) as [m Hm]; [left|]. rewrite Hm. apply IH.
    intros mid Hin. apply Hkeys. by right.
Qed.

(** X13.  After [load_data] on empty dictionaries, [people] has exactly the
    ids of [people.csv] as keys and [movies] exactly those of [movies.csv]. *)
Theorem load_data_keys (dir : directory) (id : string) :
  (is_Some (people (load_data dir no_tables) !! id)
   ↔ ∃ row, row ∈ people_csv dir ∧ pr_id row = id)
  ∧ (is_Some (movies (load_data dir no_tables) !! id)
     ↔ ∃ row, row ∈ movies_csv dir ∧ mr_id row = id).
Proof. split; [apply loaded_people_keys|apply loaded_movies_keys]. Qed.

(** X14.  After [load_data], the movie set of a person holds exactly the
    movies that the rows of [stars.csv] give to that person, whether or not
    [movies.csv] lists them; name and birth come from a row of
    [people.csv] with that id. *)
Theorem load_data_person_entry (dir : directory) (id : string) (p : person) :
  people (load_data dir no_tables) !! id = Some p →
  (∃ row, row ∈ people_csv dir ∧ pr_id row = id
          ∧ p_name p = pr_name row ∧ p_birth p = pr_birth row)
  ∧ ∀ mid, mid ∈ p_movies p
           ↔ ∃ row, row ∈ stars_csv dir ∧ sr_person_id row = id
                    ∧ sr_movie_id row = mid.
Proof. apply loaded_person. Qed.

(** X15.  After [load_data], the stars of a movie are exactly the people of
    the rows of [stars.csv] for that movie who have an entry in [people]:
    rows naming an unknown person are skipped. *)
Theorem load_data_movie_entry (dir : directory) (mid : string) (m : movie) :
  movies (load_data dir no_tables) !! mid = Some m →
  (∃ row, row ∈ movies_csv dir ∧ mr_id row = mid
          ∧ m_title m = mr_title row ∧ m_year m = mr_year row)
  ∧ ∀ pid, pid ∈ m_stars m
           ↔ ∃ row, row ∈ stars_csv dir ∧ sr_movie_id row = mid
                    ∧ sr_person_id row = pid
                    ∧ is_Some (people (load_data dir no_tables) !! pid).
Proof. apply loaded_movie. Qed.

(** X16.  When [neighbors_for_person] returns, on any tables, the set holds
    exactly the pairs of a movie of the person and a star of that movie. *)
Theorem neighbors_for_person_result (t : tables) (person_id : string)
    (ns : gset (string * string)) :
  neighbors_for_person t person_id = inr ns →
  ∃ p, people t !! person_id = Some p
       ∧ ∀ mid q, (mid, q) ∈ ns
                  ↔ mid ∈ p_movies p
                    ∧ ∃ m, movies t !! mid = Some m ∧ q ∈ m_stars m.
Proof.
  unfold neighbors_for_person.
  destruct (people t !! person_id) as [p|] eqn:Hp; [|done].
  intros Hrun. exists p. split; [done|]. intros mid q.
  destruct (neighbors_loop_exact _ _ _ _ Hrun) as [_ Hmem].
  rewrite Hmem, elem_of_empty, elem_of_elements. tauto.
Qed.

(** X17.  [neighbors_for_person] returns exactly when the person has an
    entry and every movie in their set has one; otherwise the [KeyError]
    names the person, or a movie of theirs without an entry. *)
Theorem neighbors_for_person_raises_on_missing_keys
    (t : tables) (person_id : string) :
  ((∃ ns, neighbors_for_person t person_id = inr ns)
   ↔ ∃ p, people t !! person_id = Some p
          ∧ ∀ mid, mid ∈ p_movies p → is_Some (movies t !! mid))
  ∧ ∀ e, neighbors_for_person t person_id = inl e →
         (people t !! person_id = None ∧ e = KeyError person_id)
         ∨ ∃ p mid, people t !! person_id = Some p ∧ mid ∈ p_movies p
                    ∧ movies t !! mid = None ∧ e = KeyError mid.
Proof.
  unfold neighbors_for_person.
  destruct (people t !! person_id) as [p|] eqn:Hp.
  - split.
    + split.
      * intros [ns Hrun]. exists p. split; [done|]. intros mid Hmid.
        destruct (neighbors_loop_exact _ _ _ _ Hrun) as [Hkeys _].
        by apply Hkeys, elem_of_elements.
      * intros (p' & [= <-] & Hkeys). apply neighbors_loop_total.
        intros mid Hmid. by apply Hkeys, elem_of_elements.
    + intros e Hrun. right.
      destruct (neighbors_loop_error _ _ _ _ Hrun) as (mid & Hin & Hnone & ->).
      exists p, mid. split_and!; [done| |done..]. by apply elem_of_elements.
  - split.
    + split; [by intros [ns Hrun]|by intros (p & Hp' & _)].
    + intros e [= <-]. by left.
Qed.

(** X18.  On loaded tables every pair that [neighbors_for_person] returns
    names a person who has an entry in [people] and has that movie in their
    own set, so the search can ask for their neighbours in turn. *)
Theorem loaded_neighbors_are_loaded_people (dir : directory)
    (person_id mid q : string) (ns : gset (string * string)) :
  neighbors_for_person (load_data dir no_tables) person_id = inr ns →
  (mid, q) ∈ ns →
  ∃ pq, people (load_data dir no_tables) !! q = Some pq ∧ mid ∈ p_movies pq.
Proof.
  intros Hrun Hin.
  destruct (neighbors_for_person_result _ _ _ Hrun) as (p & Hp & Hmem).
  destruct (proj1 (Hmem mid q) Hin) as (Hmid & m & Hm & Hq).
  destruct (loaded_movie dir mid m Hm) as [_ Hstars].
  destruct (proj1 (Hstars q) Hq) as (row & Hrow & Hrmid & Hrq & [pq Hpq]).
  exists pq. split; [done|].
  destruct (loaded_person dir q pq Hpq) as [_ Hmovies].
  apply Hmovies. by exists row.
Qed.

(** X19.  On loaded tables co-starring is symmetric: when [person2] is a
    neighbour of [person1] through a movie, then [person1] is a neighbour of
    [person2] through the same movie, whenever the call for [person2]
    returns. *)
Theorem loaded_neighbors_symmetric (dir : directory)
    (person1 person2 movie_id : string) (ns1 ns2 : gset (string * string)) :
  neighbors_for_person (load_data dir no_tables) person1 = inr ns1 →
  (movie_id, person2) ∈ ns1 →
  neighbors_for_person (load_data dir no_tables) person2 = inr ns2 →
  (movie_id, person1) ∈ ns2.
Proof.
  intros Hrun1 Hin Hrun2.
  destruct (loaded_neighbors_are_loaded_people dir person1 movie_id person2
              ns1 Hrun1 Hin) as (entry2 & Hentry2 & Hmovie2).
  destruct (neighbors_for_person_result _ _ _ Hrun1)
    as (entry1 & Hentry1 & Hmem1).
  destruct (proj1 (Hmem1 movie_id person2) Hin) as (Hmovie1 & m & Hm & _).
  destruct (neighbors_for_person_result _ _ _ Hrun2)
    as (entry2' & Hentry2' & Hmem2).
  rewrite Hentry2 in Hentry2'. injection Hentry2' as <-.
  apply Hmem2. split; [done|]. exists m. split; [done|].
  by apply (load_data_stars_agree dir person1 entry1 movie_id m).
Qed.

(** X20.  When every movie named in [stars.csv] is listed in [movies.csv],
    [neighbors_for_person] returns for every loaded person, and the person
    is among the stars of each of their movies. *)
Theorem listed_movies_neighbors_for_person_returns (dir : directory)
    (person_id : string) (p : person) :
  movies_listed dir →
  people (load_data dir no_tables) !! person_id = Some p →
  ∃ ns, neighbors_for_person (load_data dir no_tables) person_id = inr ns
        ∧ ∀ mid, mid ∈ p_movies p → (mid, person_id) ∈ ns.
Proof.
  intros Hlisted Hp.
  destruct (neighbors_for_person_raises_on_missing_keys
              (load_data dir no_tables) person_id) as [[_ Hreturns] _].
  destruct Hreturns as [ns Hrun].
  { exists p. split; [done|]. intros mid Hmid.
    destruct (loaded_person dir person_id p Hp) as [_ Hmovies].
    destruct (proj1 (Hmovies mid) Hmid) as (row & Hrow & _ & Hrmid).
    destruct (Hlisted row Hrow) as (mrow & Hmrow & Hid).
    apply loaded_movies_keys. exists mrow. split; [done|congruence]. }
  exists ns. split; [done|]. intros mid Hmid.
  by apply (neighbors_for_person_self dir person_id p mid ns).
Qed.

(** * The search of [main] on loaded tables *)

Section MainSearch.

(** The order in which Python iterates over a set: every element comes
    up. *)
Variable order : string → gset (string * string) → list (string * string).
Hypothesis order_elem : ∀ s X x, x ∈ order s X ↔ x ∈ X.

Lemma costars_elem (t : tables) (s a q : string) :
  (a, q) ∈ costars order t s
  ↔ ∃ ns, neighbors_for_person t s = inr ns ∧ (a, q) ∈ ns.
Proof.
  unfold costars. destruct (neighbors_for_person t s) as [e|ns].
  - split; [by intros Hin%elem_of_nil|by intros (ns & Hns & _)].
  - rewrite order_elem. split.
    + intros Hin. by exists ns.
    + by intros (ns' & [= <-] & Hin).
Qed.

Lemma loaded_costars_closed (dir : directory) :
  closed (costars order (load_data dir no_tables))
         (dom (people (load_data dir no_tables))).
Proof.
  intros s a q _ (ns & Hrun & Hin)%costars_elem.
  destruct (loaded_neighbors_are_loaded_people dir s a q ns Hrun Hin)
    as (pq & Hpq & _).
  apply elem_of_dom. by exists pq.
Qed.

(** With every movie listed no call of [neighbors_for_person] raises, and
    the loop on the tables is the loop on the graph [costars]. *)
Lemma search_loop_on_costars (dir : directory) (c : FrontierClass)
    (child : Node string string → string → string → Node string string)
    (target : string) (fuel : nat) (frontier : list (Node string string))
    (explored : gset string) (n : nat) :
  (∀ node a s, ∃ g f, child node a s = mkNode s (Some node) (Some a) g f) →
  movies_listed dir →
  (∀ node, node ∈ frontier →
           is_Some (people (load_data dir no_tables) !! state node)) →
  search_loop_on order (load_data dir no_tables) c child target fuel
                 frontier explored n
  = search_loop (costars order (load_data dir no_tables)) c child target fuel
                frontier explored n.
Proof.
  intros Hshape Hlisted. revert frontier explored n.
  induction fuel as [|fuel IH]; intros frontier explored n Hknown; [done|].
  simpl. destruct (empty frontier); [done|].
  destruct (remove c frontier) as [e|[node frontier']] eqn:Hrm; [done|].
  case_bool_decide as Htarget; [done|].
  destruct (remove_split _ _ _ _ Hrm) as (l1 & l2 & Hfr & Hfr').
  destruct (Hknown node) as [p Hp].
  { rewrite Hfr, elem_of_app, elem_of_cons. auto. }
  destruct (listed_movies_neighbors_for_person_returns dir (state node) p
              Hlisted Hp) as (ns & Hrun & _).
  rewrite Hrun.
  assert (expand (fun person_id => order person_id ns) child node
                 (explored ∪ {[state node]}) frontier'
          = expand (costars order (load_data dir no_tables)) child node
                   (explored ∪ {[state node]}) frontier') as Hexpand.
  { unfold expand, costars. by rewrite Hrun. }
  rewrite Hexpand. apply IH. intros k Hk.
  destruct (expand_spec (costars order (load_data dir no_tables)) child Hshape
              node (explored ∪ {[state node]}) frontier')
    as (kids & Hkids_eq & Hkids & _).
  rewrite Hkids_eq in Hk. apply elem_of_app in Hk as [Hk|Hk].
  - apply Hknown. rewrite Hfr. rewrite Hfr' in Hk.
    rewrite elem_of_app, elem_of_cons. apply elem_of_app in Hk as [Hk|Hk]; auto.
  - destruct (Hkids k Hk) as (a & Ha & _).
    apply costars_elem in Ha as (ns' & Hrun' & Hin).
    destruct (loaded_neighbors_are_loaded_people dir (state node) a (state k)
                ns' Hrun' Hin) as (pk & Hpk & _).
    by exists pk.
Qed.

(** X21.  [main]'s search end to end: on tables loaded from files in which
    every movie of [stars.csv] is listed, [shortest_path_A_STAR] with the
    zero heuristic, started from a loaded person, raises no [KeyError] and
    returns a chain of co-stars of least length, or [None] when no chain
    leads to the target. *)
Theorem A_STAR_on_loaded_tables_returns_shortest_chain
    (dir : directory) (source target : string) (fuel : nat) :
  movies_listed dir →
  is_Some (people (load_data dir no_tables) !! source) →
  (size (dom (people (load_data dir no_tables))) < fuel)%nat →
  ∃ res explored n,
    shortest_path_A_STAR_on order (load_data dir no_tables) source target
                            (fun _ => 0) fuel
    = Returned res explored n
    ∧ match res with
      | Some path =>
          path_from (costars order (load_data dir no_tables)) source path target
          ∧ distance (costars order (load_data dir no_tables)) source target
                     (length path)
      | None =>
          ¬ reachable (costars order (load_data dir no_tables)) source target
      end.
Proof.
  intros Hlisted Hsrc Hfuel.
  destruct (A_STAR_zero_search (costars order (load_data dir no_tables))
              (dom (people (load_data dir no_tables))) source target fuel)
    as (res & explored & n & Hrun & Hres).
  - apply loaded_costars_closed.
  - by apply elem_of_dom.
  - done.
  - exists res, explored, n. split.
    + unfold shortest_path_A_STAR_on. rewrite <- Hrun.
      unfold shortest_path_A_STAR. apply search_loop_on_costars.
      * apply child_A_STAR_shape.
      * done.
      * intros node Hnode%list_elem_of_singleton. by subst node.
    + destruct res as [path|]; [done|]. by destruct Hres.
Qed.

End MainSearch.

(** * [names] and [person_id_for_name] *)

Section NamesFacts.

Variable lower : string → string.

Lemma load_name_lookup (names : gmap string (gset string)) row (k id : string) :
  id ∈ default ∅ (load_name lower names row !! k)
  ↔ id ∈ default ∅ (names !! k)
    ∨ (pr_id row = id ∧ lower (pr_name row) = k).
Proof.
  unfold load_name.
  destruct (names !! lower (pr_name row)) as [ids|] eqn:Hids.
  - destruct (decide (lower (pr_name row) = k)) as [<-|Hne].
    + rewrite lookup_insert_eq, Hids. simpl.
      rewrite elem_of_union, elem_of_singleton. split.
      * intros [Hin|Hid]; [by left|by right].
      * intros [Hin|[Hid _]]; [by left|by right].
    + rewrite lookup_insert_ne by done. split; [by left|].
      intros [Hin|[_ Hk]]; [done|by destruct Hne].
  - destruct (decide (lower (pr_name row) = k)) as [<-|Hne].
    + rewrite lookup_insert_eq, Hids. simpl.
      rewrite elem_of_singleton, elem_of_empty. split.
      * intros Hid. by right.
      * intros [[]|[Hid _]]. done.
    + rewrite lookup_insert_ne by done. split; [by left|].
      intros [Hin|[_ Hk]]; [done|by destruct Hne].
Qed.

Lemma load_names_lookup rows (names : gmap string (gset string)) (k id : string) :
  id ∈ default ∅ (fold_left (load_name lower) rows names !! k)
  ↔ id ∈ default ∅ (names !! k)
    ∨ ∃ row, row ∈ rows ∧ pr_id row = id ∧ lower (pr_name row) = k.
Proof.
  revert names. induction rows as [|row rows IH]; intros names; simpl.
  - split; [by left|]. intros [Hin|(row & Hrow & _)]; [done|].
    by apply elem_of_nil in Hrow.
  - rewrite IH, load_name_lookup. split.
    + intros [[Hin|[Hid Hk]]|(r & Hr & Hid & Hk)].
      * by left.
      * right. exists row. split; [left|done].
      * right. exists r. split; [by right|done].
    + intros [Hin|(r & [->|Hr]%elem_of_cons & Hid & Hk)].
      * left. by left.
      * left. by right.
      * right. by exists r.
Qed.

(** X22.  After [load_data] on empty dictionaries, [names] lists under a
    lowered name exactly the ids of the rows of [people.csv] with that
    lowered name, and every person in [people] is listed under their own
    lowered name. *)
Theorem load_data_names_index (dir : directory) (k id : string) :
  (id ∈ default ∅ (load_names lower dir ∅ !! k)
   ↔ ∃ row, row ∈ people_csv dir ∧ pr_id row = id ∧ lower (pr_name row) = k)
  ∧ ∀ p, people (load_data dir no_tables) !! id = Some p →
         id ∈ default ∅ (load_names lower dir ∅ !! lower (p_name p)).
Proof.
  assert (∀ k', id ∈ default ∅ (load_names lower dir ∅ !! k')
                ↔ ∃ row, row ∈ people_csv dir ∧ pr_id row = id
                         ∧ lower (pr_name row) = k') as Hindex.
  { intros k'. unfold load_names. rewrite load_names_lookup, lookup_empty.
    simpl. rewrite elem_of_empty. tauto. }
  split; [apply Hindex|]. intros p Hp. apply Hindex.
  destruct (loaded_person dir id p Hp) as [(row & Hrow & Hid & Hname & _) _].
  exists row. split_and!; [done..|]. by rewrite Hname.
Qed.

Lemma list_choices_known (t : tables) (l : list string) :
  (∀ id, id ∈ l → is_Some (people t !! id)) → list_choices t l = inr ().
Proof.
  induction l as [|x l IH]; intros Hknown; [done|]. simpl.
  destruct (Hknown x) as [p ->]; [left|]. apply IH.
  intros id Hid. apply Hknown. by right.
Qed.

(** X23.  On loaded dictionaries [person_id_for_name] raises nothing.  It
    returns [None] for a name nobody has, the id for a name one person has,
    and for a name several people have the id typed in if it is one of
    theirs, else [None]; an id it returns has that name in [people.csv] and
    an entry in [people]. *)
Theorem person_id_for_name_on_loaded_tables
    (dir : directory) (name typed : string) :
  let names := load_names lower dir ∅ in
  let person_ids := default ∅ (names !! lower name) in
  ∃ r, person_id_for_name lower names (load_data dir no_tables) name typed
       = inr r
       ∧ (person_ids = ∅ → r = None)
       ∧ (∀ id, person_ids = {[id]} → r = Some id)
       ∧ ((1 < size person_ids)%nat →
          r = if bool_decide (typed ∈ person_ids) then Some typed else None)
       ∧ ∀ id, r = Some id →
               id ∈ person_ids
               ∧ is_Some (people (load_data dir no_tables) !! id).
Proof.
  intros names person_ids.
  assert (∀ id, id ∈ person_ids →
                is_Some (people (load_data dir no_tables) !! id)) as Hknown.
  { intros id Hid.
    destruct (load_data_names_index dir (lower name) id) as [Hindex _].
    apply Hindex in Hid as (row & Hrow & Hrid & _).
    apply loaded_people_keys. by exists row. }
  unfold person_id_for_name. fold names. fold person_ids.
  assert (size person_ids = length (elements person_ids)) as Hsize by done.
  destruct (elements person_ids) as [|x [|y l]] eqn:Hel.
  - apply elements_empty_inv in Hel. apply leibniz_equiv in Hel.
    exists None. split_and!; [done..| | |done].
    + intros id Hid. assert (id ∈ person_ids) as Hin.
      { rewrite Hid. by apply elem_of_singleton. }
      rewrite Hel in Hin. by apply elem_of_empty in Hin.
    + intros Hlt. simpl in Hsize. lia.
  - assert (∀ id, id ∈ person_ids ↔ id = x) as Hmem.
    { intros id. by rewrite <- elem_of_elements, Hel, list_elem_of_singleton. }
    exists (Some x). split_and!; [done| | | |].
    + intros Hempty. assert (x ∈ person_ids) as Hx by by apply Hmem.
      rewrite Hempty in Hx. by apply elem_of_empty in Hx.
    + intros id Hid. f_equal. symmetry. apply Hmem. rewrite Hid.
      by apply elem_of_singleton.
    + intros Hlt. simpl in Hsize. lia.
    + intros id [= <-]. split; [by apply Hmem|]. by apply Hknown, Hmem.
  - rewrite list_choices_known.
    2:{ intros id Hid. apply Hknown. by rewrite <- elem_of_elements, Hel. }
    assert (bool_decide (typed ∈ x :: y :: l)
            = bool_decide (typed ∈ person_ids)) as Htyped.
    { apply bool_decide_ext. by rewrite <- Hel, elem_of_elements. }
    rewrite Htyped.
    exists (if bool_decide (typed ∈ person_ids) then Some typed else None).
    split_and!.
    + by destruct (bool_decide (typed ∈ person_ids)).
    + intros Hempty. rewrite Hempty in Hel. by rewrite elements_empty in Hel.
    + intros id Hid. rewrite Hid, elements_singleton in Hel. done.
    + done.
    + intros id. destruct (bool_decide (typed ∈ person_ids)) eqn:Hin; [|done].
      apply bool_decide_eq_true in Hin. intros [= <-].
      split; [done|by apply Hknown].
Qed.

End NamesFacts.

(** * The further properties on small inputs *)

Lemma triangle_reachable_A_C : reachable triangle "A" "C".
Proof. apply triangle_connected; [apply triangle_A|apply triangle_C]. Qed.

Lemma triangle_dir_movies_listed : movies_listed triangle_dir.
Proof.
  intros row Hrow. unfold triangle_dir in *. simpl in *.
  repeat (apply elem_of_cons in Hrow as [->|Hrow]);
    [ exists (mkMoviesRow "m1" "One" "1991")
    | exists (mkMoviesRow "m1" "One" "1991")
    | exists (mkMoviesRow "m2" "Two" "1992")
    | exists (mkMoviesRow "m2" "Two" "1992")
    | exists (mkMoviesRow "m3" "Three" "1993")
    | exists (mkMoviesRow "m3" "Three" "1993")
    | by apply elem_of_nil in Hrow ];
    (split; [|done]);
    repeat first [apply list_elem_of_here | apply list_elem_of_further].
Qed.

Lemma triangle_dir_neighbors_A :
  neighbors_for_person (load_data triangle_dir no_tables) "A"
  = inr {[("m1", "A"); ("m1", "B"); ("m3", "A"); ("m3", "C")]}.
Proof. by vm_compute. Qed.

Lemma triangle_dir_neighbors_B :
  neighbors_for_person (load_data triangle_dir no_tables) "B"
  = inr {[("m1", "A"); ("m1", "B"); ("m2", "B"); ("m2", "C")]}.
Proof. by vm_compute. Qed.

Lemma triangle_dir_person_A :
  people (load_data triangle_dir no_tables) !! "A"
  = Some (mkPerson "Ann" "1950" {["m1"; "m3"]}).
Proof. by vm_compute. Qed.

Lemma triangle_dir_movie_m1 :
  movies (load_data triangle_dir no_tables) !! "m1"
  = Some (mkMovie "One" "1991" {["A"; "B"]}).
Proof. by vm_compute. Qed.

Lemma triangle_dir_size :
  (size (dom (people (load_data triangle_dir no_tables))) < 4)%nat.
Proof. vm_compute. lia. Qed.

Lemma m1_B_neighbor_of_A :
  ("m1", "B") ∈ ({[("m1", "A"); ("m1", "B"); ("m3", "A"); ("m3", "C")]}
                 : gset (string * string)).
Proof. rewrite !elem_of_union, !elem_of_singleton. auto. Qed.

(** Three nodes with [f] 3, 1, 1. *)
Lemma remove_takes_one_node_out_witness :
  let frontier : list (Node string string) :=
    [mkNode "A" None None 3 3; mkNode "B" None None 1 1;
     mkNode "C" None None 1 1] in
  let node : Node string string := mkNode "B" None None 1 1 in
  let frontier' : list (Node string string) :=
    [mkNode "A" None None 3 3; mkNode "C" None None 1 1] in
  remove AStarFrontier frontier = inr (node, frontier')
  ∧ (∃ l1 l2, frontier = l1 ++ node :: l2 ∧ frontier' = l1 ++ l2)
  ∧ length frontier = S (length frontier').
Proof.
  intros frontier node frontier'. split; [reflexivity|].
  apply (remove_takes_one_node_out AStarFrontier frontier node frontier').
  reflexivity.
Defined.

Lemma AStarFrontier_removes_in_f_order_witness :
  let n1 : Node string string := mkNode "B" None None 1 1 in
  let n2 : Node string string := mkNode "C" None None 1 1 in
  let n3 : Node string string := mkNode "A" None None 3 3 in
  remove AStarFrontier [n3; n1; n2] = inr (n1, [n3; n2])
  ∧ remove AStarFrontier [n3; n2] = inr (n2, [n3])
  ∧ f n1 ≤ f n2.
Proof.
  intros n1 n2 n3. split; [reflexivity|]. split; [reflexivity|].
  apply (AStarFrontier_removes_in_f_order [n3; n1; n2] n1 [n3; n2] n2 [n3]);
    reflexivity.
Defined.

Lemma AStarFrontier_is_a_queue_on_equal_f_witness :
  let frontier : list (Node string string) :=
    [mkNode "B" None None 1 1; mkNode "C" None None 1 1] in
  Forall (fun m => f m = 1) frontier
  ∧ remove AStarFrontier frontier = remove QueueFrontier frontier.
Proof.
  intros frontier.
  assert (Forall (fun m : Node string string => f m = 1) frontier) as Hall.
  { repeat constructor. }
  split; [exact Hall|].
  exact (AStarFrontier_is_a_queue_on_equal_f frontier 1 Hall).
Defined.

Lemma contains_state_after_remove_witness :
  let frontier : list (Node string string) :=
    [mkNode "A" None None 0 0; mkNode "B" None None 0 0] in
  NoDup (state <$> frontier)
  ∧ remove StackFrontier frontier
    = inr (mkNode "B" None None 0 0, [mkNode "A" None None 0 0])
  ∧ contains_state [mkNode "A" None (None : option string) 0 0] "B"
    = contains_state frontier "B"
      && negb (bool_decide ("B" = state (mkNode "B" None (None : option string) 0 0))).
Proof.
  intros frontier.
  assert (NoDup (state <$> frontier)) as Hnd.
  { simpl. apply NoDup_cons. split; [|apply NoDup_singleton].
    by intros Hin%list_elem_of_singleton. }
  split; [exact Hnd|]. split; [reflexivity|].
  apply (contains_state_after_remove StackFrontier frontier
           (mkNode "B" None None 0 0) [mkNode "A" None None 0 0] "B" Hnd).
  reflexivity.
Defined.

Lemma A_STAR_zero_heuristic_returns_shortest_path_witness :
  closed triangle triangle_people ∧ "A" ∈ triangle_people
  ∧ (size triangle_people < 4)%nat ∧ reachable triangle "A" "C"
  ∧ ∃ path explored n,
      shortest_path_A_STAR triangle "A" "C" (fun _ => 0) 4
      = Returned (Some path) explored n
      ∧ path_from triangle "A" path "C"
      ∧ distance triangle "A" "C" (length path).
Proof.
  split_and!;
    [ apply triangle_closed | apply triangle_A | apply triangle_size
    | apply triangle_reachable_A_C | ].
  apply (A_STAR_zero_heuristic_returns_shortest_path triangle triangle_people
           "A" "C" 4).
  - apply triangle_closed.
  - apply triangle_A.
  - apply triangle_size.
  - apply triangle_reachable_A_C.
Defined.

Lemma nodes_explored_counts_explored_states_witness :
  let run := shortest_path triangle "A" "B" 4 in
  (run = shortest_path_with triangle StackFrontier "A" "B" 4
   ∨ run = shortest_path_A_STAR triangle "A" "B" (fun _ => 0) 4)
  ∧ run = Returned (Some [(Some "m1", "B")]) {["A"; "C"]} 3
  ∧ 3%nat = (size ({["A"; "C"]} : gset string) + 1)%nat.
Proof.
  intros run. split; [by left|]. split; [apply stack_search_A_B|].
  apply (nodes_explored_counts_explored_states triangle StackFrontier
           (fun _ => 0) "A" "B" 4 run (Some [(Some "m1", "B")])
           {["A"; "C"]} 3).
  - by left.
  - apply stack_search_A_B.
Defined.

Lemma returned_path_is_simple_witness :
  let run := shortest_path triangle "A" "B" 4 in
  (run = shortest_path_with triangle StackFrontier "A" "B" 4
   ∨ run = shortest_path_A_STAR triangle "A" "B" (fun _ => 0) 4)
  ∧ run = Returned (Some [(Some "m1", "B")]) {["A"; "C"]} 3
  ∧ NoDup ("A" :: (snd <$> [(Some "m1", "B")])).
Proof.
  intros run. split; [by left|]. split; [apply stack_search_A_B|].
  apply (returned_path_is_simple triangle StackFrontier (fun _ => 0)
           "A" "B" 4 run [(Some "m1", "B")] {["A"; "C"]} 3).
  - by left.
  - apply stack_search_A_B.
Defined.

Lemma nodes_explored_bounded_by_vertices_witness :
  let run := shortest_path triangle "A" "B" 4 in
  closed triangle triangle_people ∧ "A" ∈ triangle_people
  ∧ (run = shortest_path_with triangle StackFrontier "A" "B" 4
     ∨ run = shortest_path_A_STAR triangle "A" "B" (fun _ => 0) 4)
  ∧ run = Returned (Some [(Some "m1", "B")]) {["A"; "C"]} 3
  ∧ ({["A"; "C"]} : gset string) ⊆ triangle_people
  ∧ (3 ≤ size triangle_people)%nat.
Proof.
  intros run.
  split; [apply triangle_closed|]. split; [apply triangle_A|].
  split; [by left|]. split; [apply stack_search_A_B|].
  apply (nodes_explored_bounded_by_vertices triangle triangle_people
           StackFrontier (fun _ => 0) "A" "B" 4 run
           (Some [(Some "m1", "B")]) {["A"; "C"]} 3).
  - apply triangle_closed.
  - apply triangle_A.
  - by left.
  - apply stack_search_A_B.
Defined.

Lemma every_search_returns_a_path_or_None_witness :
  closed triangle triangle_people ∧ "A" ∈ triangle_people
  ∧ (size triangle_people < 4)%nat
  ∧ (∃ res explored n,
        shortest_path_with triangle QueueFrontier "A" "C" 4
        = Returned res explored n
        ∧ (∀ path, res = Some path → path_from triangle "A" path "C")
        ∧ (res = None ↔ ¬ reachable triangle "A" "C"))
  ∧ (∃ res explored n,
        shortest_path_A_STAR triangle "A" "C" (fun _ => 7) 4
        = Returned res explored n
        ∧ (∀ path, res = Some path → path_from triangle "A" path "C")
        ∧ (res = None ↔ ¬ reachable triangle "A" "C")).
Proof.
  split; [apply triangle_closed|]. split; [apply triangle_A|].
  split; [apply triangle_size|].
  apply (every_search_returns_a_path_or_None triangle triangle_people
           QueueFrontier (fun _ => 7) "A" "C" 4).
  - apply triangle_closed.
  - apply triangle_A.
  - apply triangle_size.
Defined.

Lemma load_data_person_entry_witness :
  let p := mkPerson "Ann" "1950" {["m1"; "m3"]} in
  people (load_data triangle_dir no_tables) !! "A" = Some p
  ∧ (∃ row, row ∈ people_csv triangle_dir ∧ pr_id row = "A"
            ∧ p_name p = pr_name row ∧ p_birth p = pr_birth row)
  ∧ ∀ mid, mid ∈ p_movies p
           ↔ ∃ row, row ∈ stars_csv triangle_dir ∧ sr_person_id row = "A"
                    ∧ sr_movie_id row = mid.
Proof.
  intros p. split; [apply triangle_dir_person_A|].
  apply (load_data_person_entry triangle_dir "A" p).
  apply triangle_dir_person_A.
Defined.

Lemma load_data_movie_entry_witness :
  let m := mkMovie "One" "1991" {["A"; "B"]} in
  movies (load_data triangle_dir no_tables) !! "m1" = Some m
  ∧ (∃ row, row ∈ movies_csv triangle_dir ∧ mr_id row = "m1"
            ∧ m_title m = mr_title row ∧ m_year m = mr_year row)
  ∧ ∀ pid, pid ∈ m_stars m
           ↔ ∃ row, row ∈ stars_csv triangle_dir ∧ sr_movie_id row = "m1"
                    ∧ sr_person_id row = pid
                    ∧ is_Some (people (load_data triangle_dir no_tables) !! pid).
Proof.
  intros m. split; [apply triangle_dir_movie_m1|].
  apply (load_data_movie_entry triangle_dir "m1" m).
  apply triangle_dir_movie_m1.
Defined.

Lemma neighbors_for_person_result_witness :
  let t := load_data triangle_dir no_tables in
  let ns : gset (string * string) :=
    {[("m1", "A"); ("m1", "B"); ("m3", "A"); ("m3", "C")]} in
  neighbors_for_person t "A" = inr ns
  ∧ ∃ p, people t !! "A" = Some p
         ∧ ∀ mid q, (mid, q) ∈ ns
                    ↔ mid ∈ p_movies p
                      ∧ ∃ m, movies t !! mid = Some m ∧ q ∈ m_stars m.
Proof.
  intros t ns. split; [apply triangle_dir_neighbors_A|].
  apply (neighbors_for_person_result t "A" ns).
  apply triangle_dir_neighbors_A.
Defined.

Lemma loaded_neighbors_are_loaded_people_witness :
  let t := load_data triangle_dir no_tables in
  let ns : gset (string * string) :=
    {[("m1", "A"); ("m1", "B"); ("m3", "A"); ("m3", "C")]} in
  neighbors_for_person t "A" = inr ns
  ∧ ("m1", "B") ∈ ns
  ∧ ∃ pq, people t !! "B" = Some pq ∧ "m1" ∈ p_movies pq.
Proof.
  intros t ns. split; [apply triangle_dir_neighbors_A|].
  split; [apply m1_B_neighbor_of_A|].
  apply (loaded_neighbors_are_loaded_people triangle_dir "A" "m1" "B" ns).
  - apply triangle_dir_neighbors_A.
  - apply m1_B_neighbor_of_A.
Defined.

Lemma loaded_neighbors_symmetric_witness :
  let t := load_data triangle_dir no_tables in
  let ns1 : gset (string * string) :=
    {[("m1", "A"); ("m1", "B"); ("m3", "A"); ("m3", "C")]} in
  let ns2 : gset (string * string) :=
    {[("m1", "A"); ("m1", "B"); ("m2", "B"); ("m2", "C")]} in
  neighbors_for_person t "A" = inr ns1
  ∧ ("m1", "B") ∈ ns1
  ∧ neighbors_for_person t "B" = inr ns2
  ∧ ("m1", "A") ∈ ns2.
Proof.
  intros t ns1 ns2. split; [apply triangle_dir_neighbors_A|].
  split; [apply m1_B_neighbor_of_A|].
  split; [apply triangle_dir_neighbors_B|].
  apply (loaded_neighbors_symmetric triangle_dir "A" "B" "m1" ns1 ns2).
  - apply triangle_dir_neighbors_A.
  - apply m1_B_neighbor_of_A.
  - apply triangle_dir_neighbors_B.
Defined.

Lemma listed_movies_neighbors_for_person_returns_witness :
  let t := load_data triangle_dir no_tables in
  let p := mkPerson "Ann" "1950" {["m1"; "m3"]} in
  movies_listed triangle_dir
  ∧ people t !! "A" = Some p
  ∧ ∃ ns, neighbors_for_person t "A" = inr ns
          ∧ ∀ mid, mid ∈ p_movies p → (mid, "A") ∈ ns.
Proof.
  intros t p. split; [apply triangle_dir_movies_listed|].
  split; [apply triangle_dir_person_A|].
  apply (listed_movies_neighbors_for_person_returns triangle_dir "A" p).
  - apply triangle_dir_movies_listed.
  - apply triangle_dir_person_A.
Defined.

Lemma triangle_dir_person_A_known :
  is_Some (people (load_data triangle_dir no_tables) !! "A").
Proof. rewrite triangle_dir_person_A. by eexists. Qed.

Lemma A_STAR_on_loaded_tables_returns_shortest_chain_witness :
  let order := fun (_ : string) (s : gset (string * string)) => elements s in
  let t := load_data triangle_dir no_tables in
  (∀ s X x, x ∈ order s X ↔ x ∈ X)
  ∧ movies_listed triangle_dir
  ∧ is_Some (people t !! "A")
  ∧ (size (dom (people t)) < 4)%nat
  ∧ ∃ res explored n,
      shortest_path_A_STAR_on order t "A" "C" (fun _ => 0) 4
      = Returned res explored n
      ∧ match res with
        | Some path =>
            path_from (costars order t) "A" path "C"
            ∧ distance (costars order t) "A" "C" (length path)
        | None => ¬ reachable (costars order t) "A" "C"
        end.
Proof.
  intros order t.
  assert (∀ s X x, x ∈ order s X ↔ x ∈ X) as Horder.
  { intros s X x. apply elem_of_elements. }
  split; [exact Horder|]. split; [apply triangle_dir_movies_listed|].
  split; [apply triangle_dir_person_A_known|].
  split; [apply triangle_dir_size|].
  apply (A_STAR_on_loaded_tables_returns_shortest_chain order Horder
           triangle_dir "A" "C" 4).
  - apply triangle_dir_movies_listed.
  - apply triangle_dir_person_A_known.
  - apply triangle_dir_size.
Defined.

(** [main]'s search on the triangle loaded from its files. *)
Example A_STAR_on_triangle_dir :
  shortest_path_A_STAR_on (fun _ s => elements s)
    (load_data triangle_dir no_tables) "A" "C" (fun _ => 0) 4
  = Returned (Some [(Some "m3", "C")]) {["A"]} 2.
Proof. by vm_compute. Qed.

(** The same search on the files with the dangling movie ends in the
    [KeyError]. *)
Example A_STAR_on_dangling :
  shortest_path_A_STAR_on (fun _ s => elements s)
    (load_data dangling no_tables) "1" "2" (fun _ => 0) 4
  = Raised (KeyError "9").
Proof. by vm_compute. Qed.
